(** * RoboCOIN DataManager: the filter manager (docs/js/modules/filter-manager.js)

    A shallow embedding of the [FilterManager] class: the facet index and its
    hierarchy tree, the selection set, the filter evaluator, the affected-count
    calculator, the Filter Finder navigation and the debounced recomputation.

    Conventions of the embedding.
    - A JavaScript string is a [string]; [toLowerCase] lower-cases the ASCII
      letters.
    - A JavaScript [Set] of strings and a [Map] keyed by strings iterate in
      insertion order: they are lists without duplicates ([JSSet]) and
      association lists ([Hierarchy]), a new key going to the end.
    - [undefined] is [None]: an absent record field, and the second component
      of a destructured [split] that has a single part.
    - A plain object used as a dictionary ([filters], [filterGroups]) is an
      association list of its own properties; the facet keys are the five
      literals of [buildFilterGroups], none of which names an inherited
      property.
    - Methods that mutate [this] take the state and return the new state.
    - [setTimeout] and [clearTimeout] act on an explicit table of live timers.
    - The DOM is not modelled, except for the labels of the rendered options,
      which the Filter Finder reads. *)

From Stdlib Require Import String Ascii List Bool Arith ZArith Lia Permutation Sorted.
Import ListNotations.
Open Scope string_scope.
Open Scope list_scope.

(** ** Strings *)

Module JSString.

(** [c.toLowerCase()] on one ASCII character. *)
Definition lowerChar (c : ascii) : ascii :=
  let n := nat_of_ascii c in
  if ((65 <=? n) && (n <=? 90))%nat then ascii_of_nat (n + 32)%nat else c.

(** [s.toLowerCase()] *)
Fixpoint toLowerCase (s : string) : string :=
  match s with
  | EmptyString => EmptyString
  | String c rest => String (lowerChar c) (toLowerCase rest)
  end.

(** [s.startsWith(p)] *)
Fixpoint startsWith (s p : string) : bool :=
  match p, s with
  | EmptyString, _ => true
  | String _ _, EmptyString => false
  | String a p', String b s' => Ascii.eqb a b && startsWith s' p'
  end.

(** [s.includes(sub)]: [sub] occurs in [s] at some position. *)
Fixpoint includes (s sub : string) : bool :=
  startsWith s sub ||
  match s with
  | EmptyString => false
  | String _ rest => includes rest sub
  end.

(** [s.split(sep)] for a one-character separator: the pieces between the
    occurrences of [sep]; always at least one piece. *)
Fixpoint split (sep : ascii) (s : string) : list string :=
  match s with
  | EmptyString => [EmptyString]
  | String c rest =>
      if Ascii.eqb c sep then EmptyString :: split sep rest
      else match split sep rest with
           | piece :: pieces => String c piece :: pieces
           | [] => [String c EmptyString]
           end
  end.

(** [sep] occurs in [s]. *)
Fixpoint hasChar (sep : ascii) (s : string) : bool :=
  match s with
  | EmptyString => false
  | String c rest => Ascii.eqb c sep || hasChar sep rest
  end.

(** The part of [s] before its first [sep] (all of [s] when there is none). *)
Fixpoint before (sep : ascii) (s : string) : string :=
  match s with
  | EmptyString => EmptyString
  | String c rest => if Ascii.eqb c sep then EmptyString else String c (before sep rest)
  end.

End JSString.
Import JSString.

(** ** Arrays and [Set]s of strings *)

(** [arr.includes(x)] on an array of strings. *)
Definition arr_includes (arr : list string) (x : string) : bool :=
  existsb (String.eqb x) arr.

(** [arr.indexOf(x)]: the first index holding [x], [-1] when there is none. *)
Fixpoint indexOf (arr : list string) (x : string) : Z :=
  match arr with
  | [] => (-1)%Z
  | y :: rest =>
      if String.eqb y x then 0%Z
      else let i := indexOf rest x in
           if (i <? 0)%Z then (-1)%Z else (i + 1)%Z
  end.

(** Equality of two JavaScript values that are strings or [undefined]. *)
Definition sameValue (a b : option string) : bool :=
  match a, b with
  | Some x, Some y => String.eqb x y
  | None, None => true
  | _, _ => false
  end.

(** [values.includes(x)] where the array may hold [undefined]. *)
Definition values_includes (values : list (option string)) (x : option string) : bool :=
  existsb (sameValue x) values.

(** A [Set] of strings, in insertion order. *)
Definition JSSet := list string.

Module StrSet.

Definition has (s : JSSet) (x : string) : bool := arr_includes s x.

Definition add (s : JSSet) (x : string) : JSSet :=
  if has s x then s else s ++ [x].

Definition delete (s : JSSet) (x : string) : JSSet :=
  filter (fun y => negb (String.eqb x y)) s.

Definition clear (_ : JSSet) : JSSet := [].

Definition size (s : JSSet) : nat := length s.

(** Two sets are equal when they have the same members. *)
Definition same (s t : JSSet) : Prop := forall x, has s x = has t x.

End StrSet.

(** ** The catalog *)

(** An entry of [ds.objects]. The evaluator and the calculator read
    [obj.hierarchy] without a guard: it is an array of labels. *)
Record ObjectRef := mkObjectRef {
  obj_name : string;
  hierarchy : list string
}.

(** [ds.robot] is a string or an array of strings. *)
Inductive RobotField :=
| RobotString (r : string)
| RobotArray (rs : list string).

(** A record of the catalog, with the fields the filter logic reads. The
    fields that the code tests before use may be absent. *)
Record Dataset := mkDataset {
  path : string;
  name : string;
  scenes : option (list string);
  robot : option RobotField;
  endEffector : option string;
  actions : option (list string);
  objects : option (list ObjectRef)
}.

(** [Array.isArray(ds.robot) ? ds.robot : [ds.robot]] *)
Definition robots_of (ds : Dataset) : list (option string) :=
  match robot ds with
  | Some (RobotArray rs) => map Some rs
  | Some (RobotString r) => [Some r]
  | None => [None]
  end.

(** ** The filter evaluator *)

(** [const [key, value] = filterId.split(':')] *)
Definition parseFilterId (filterId : string) : string * option string :=
  match split ":" filterId with
  | key :: value :: _ => (key, Some value)
  | [key] => (key, None)
  | [] => (EmptyString, None)
  end.

(** The object [filters]: for each key, the array of its values. *)
Definition Filters := list (string * list (option string)).

(** [if (!filters[key]) filters[key] = []; filters[key].push(value)] *)
Fixpoint filters_push (filters : Filters) (key : string) (value : option string) : Filters :=
  match filters with
  | [] => [(key, [value])]
  | (k, values) :: rest =>
      if String.eqb k key then (k, values ++ [value]) :: rest
      else (k, values) :: filters_push rest key value
  end.

(** The loop over [this.selectedFilters] that collects the selected filters. *)
Definition collectFilters (selectedFilters : JSSet) : Filters :=
  fold_left (fun filters filterId =>
               let '(key, value) := parseFilterId filterId in
               filters_push filters key value)
            selectedFilters [].

(** The body of the [for] loop over [Object.entries(filters)]: the value of
    [match] for one key and its values. *)
Definition facetMatch (ds : Dataset) (key : string) (values : list (option string)) : bool :=
  if String.eqb key "scene" then
    match scenes ds with
    | Some l => existsb (fun v => values_includes values (Some v)) l
    | None => false
    end
  else if String.eqb key "robot" then
    existsb (fun r => values_includes values r) (robots_of ds)
  else if String.eqb key "end" then
    values_includes values (endEffector ds)
  else if String.eqb key "action" then
    match actions ds with
    | Some l => existsb (fun a => values_includes values (Some a)) l
    | None => false
    end
  else if String.eqb key "object" then
    match objects ds with
    | Some objs =>
        existsb (fun obj => existsb (fun h => values_includes values (Some h)) (hierarchy obj)) objs
    | None => false
    end
  else false.

(** The callback of [this.datasets.filter]. *)
Definition passesFilters (searchQuery : string) (filters : Filters) (ds : Dataset) : bool :=
  if negb (String.eqb searchQuery "")
     && negb (includes (toLowerCase (name ds)) (toLowerCase searchQuery))
  then false
  else forallb (fun '(key, values) => facetMatch ds key values) filters.

(** [applyFilters(searchQuery)] on the catalog and the selection set. *)
Definition applyFilters (datasets : list Dataset) (selectedFilters : JSSet)
    (searchQuery : string) : list Dataset :=
  filter (passesFilters searchQuery (collectFilters selectedFilters)) datasets.

(** ** The affected-count calculator *)

(** The value of [match] in [calculateAffectedCount] for one record. *)
Definition affects (filterKey filterValue : string) (ds : Dataset) : bool :=
  if String.eqb filterKey "scene" then
    match scenes ds with
    | Some l => arr_includes l filterValue
    | None => false
    end
  else if String.eqb filterKey "robot" then
    values_includes (robots_of ds) (Some filterValue)
  else if String.eqb filterKey "end" then
    sameValue (endEffector ds) (Some filterValue)
  else if String.eqb filterKey "action" then
    match actions ds with
    | Some l => arr_includes l filterValue
    | None => false
    end
  else if String.eqb filterKey "object" then
    match objects ds with
    | Some objs => existsb (fun obj => arr_includes (hierarchy obj) filterValue) objs
    | None => false
    end
  else false.

(** [calculateAffectedCount(filterKey, filterValue)] *)
Definition calculateAffectedCount (datasets : list Dataset)
    (filterKey filterValue : string) : nat :=
  fold_left (fun count ds => if affects filterKey filterValue ds then S count else count)
            datasets 0.

(** ** The hierarchy tree *)

(** A node of the hierarchy: [{ children: new Map(), isLeaf: ... }]. *)
#[local] Set Warnings "-register-all".
Inductive HierarchyNode : Type :=
  mkNode { children : list (string * HierarchyNode); isLeaf : bool }.

(** A hierarchy [Map]: labels to nodes, in insertion order. *)
Definition Hierarchy := list (string * HierarchyNode).

Module HMap.

(** [m.get(k)], [undefined] as [None] *)
Fixpoint get (m : Hierarchy) (k : string) : option HierarchyNode :=
  match m with
  | [] => None
  | (k', node) :: rest => if String.eqb k' k then Some node else get rest k
  end.

(** [m.has(k)] *)
Definition has (m : Hierarchy) (k : string) : bool :=
  match get m k with Some _ => true | None => false end.

(** The map after the node stored at [k] has been changed by [f]
    (the node is an object shared with the map). *)
Fixpoint modify (m : Hierarchy) (k : string) (f : HierarchyNode -> HierarchyNode) : Hierarchy :=
  match m with
  | [] => []
  | (k', node) :: rest =>
      if String.eqb k' k then (k', f node) :: rest
      else (k', node) :: modify rest k f
  end.

(** [m.set(k, node)]: an existing key keeps its place, a new one goes last. *)
Definition set (m : Hierarchy) (k : string) (node : HierarchyNode) : Hierarchy :=
  if has m k then modify m k (fun _ => node) else m ++ [(k, node)].

(** [m.size] *)
Definition size (m : Hierarchy) : nat := length m.

End HMap.

(** The [forEach] of [addToHierarchy]: [current] is the map the loop stands
    at and [levels] the labels still to come, so [idx === levels.length - 1]
    holds when no label follows. The maps below [current] are changed in
    place. *)
Fixpoint addLevels (current : Hierarchy) (levels : list string) : Hierarchy :=
  match levels with
  | [] => current
  | level :: rest =>
      let current' :=
        if negb (HMap.has current level)
        then HMap.set current level
               (mkNode [] (match rest with [] => true | _ :: _ => false end))
        else current in
      HMap.modify current' level
        (fun node => mkNode (addLevels (children node) rest) (isLeaf node))
  end.

(** [addToHierarchy(hierarchyMap, levels)] *)
Definition addToHierarchy (hierarchyMap : Hierarchy) (levels : list string) : Hierarchy :=
  match levels with
  | [] => hierarchyMap
  | _ :: _ => addLevels hierarchyMap levels
  end.

(** What the callback of [countHierarchyItems] adds to [count] for one node. *)
Fixpoint countNode (node : HierarchyNode) : nat :=
  match node with
  | mkNode ch _ =>
      if (0 <? length ch)%nat
      then fold_left (fun count entry => (count + countNode (snd entry))%nat) ch 0%nat
      else 1%nat
  end.

(** [countHierarchyItems(hierarchyMap)] *)
Definition countHierarchyItems (hierarchyMap : Hierarchy) : nat :=
  fold_left (fun count entry => (count + countNode (snd entry))%nat) hierarchyMap 0%nat.

(** The [for] loop of [findHierarchyNode] over the parts still to visit;
    [parts] is the whole array, which [indexOf] searches from its start. *)
Fixpoint findLoop (parts : list string) (current : Hierarchy) (todo : list string)
  : option HierarchyNode :=
  match todo with
  | [] => None
  | part :: rest =>
      match HMap.get current part with
      | None => None
      | Some node =>
          if (indexOf parts part =? Z.of_nat (length parts) - 1)%Z
          then Some node
          else findLoop parts (children node) rest
      end
  end.

(** [findHierarchyNode(hierarchyMap, path)], [null] as [None] *)
Definition findHierarchyNode (hierarchyMap : Hierarchy) (path : string) : option HierarchyNode :=
  let parts := split ">" path in
  findLoop parts hierarchyMap parts.

(** ** The facet index *)

Inductive FilterGroup :=
| FlatGroup (title : string) (values : JSSet)
| HierarchicalGroup (title : string) (values : Hierarchy).

(** The object [filterGroups]. *)
Definition FilterGroups := list (string * FilterGroup).

(** [filterGroups[key]] *)
Fixpoint group_of (groups : FilterGroups) (key : string) : option FilterGroup :=
  match groups with
  | [] => None
  | (k, g) :: rest => if String.eqb k key then Some g else group_of rest key
  end.

(** The value containers of the five groups while [buildFilterGroups] runs. *)
Record GroupValues := mkGroupValues {
  scene_values : JSSet;
  robot_values : JSSet;
  end_values : JSSet;
  action_values : JSSet;
  object_values : Hierarchy
}.

(** [if (s)] on a string: the empty string is falsy. *)
Definition truthy (s : string) : bool := negb (String.eqb s "").

(** The callback of [this.datasets.forEach] in [buildFilterGroups]. *)
Definition collectDataset (groups : GroupValues) (ds : Dataset) : GroupValues :=
  let sc := match scenes ds with
            | Some l => fold_left StrSet.add l (scene_values groups)
            | None => scene_values groups
            end in
  let ro := match robot ds with
            | Some (RobotArray rs) => fold_left StrSet.add rs (robot_values groups)
            | Some (RobotString r) =>
                if truthy r then StrSet.add (robot_values groups) r else robot_values groups
            | None => robot_values groups
            end in
  let en := match endEffector ds with
            | Some e => if truthy e then StrSet.add (end_values groups) e else end_values groups
            | None => end_values groups
            end in
  let ac := match actions ds with
            | Some l => fold_left StrSet.add l (action_values groups)
            | None => action_values groups
            end in
  let ob := match objects ds with
            | Some objs =>
                fold_left (fun m obj => addToHierarchy m (hierarchy obj)) objs (object_values groups)
            | None => object_values groups
            end in
  mkGroupValues sc ro en ac ob.

(** The values collected by [buildFilterGroups] from the catalog. *)
Definition collectValues (datasets : list Dataset) : GroupValues :=
  fold_left collectDataset datasets (mkGroupValues [] [] [] [] []).

(** [buildFilterGroups()]: the object stored in [this.filterGroups]. *)
Definition buildFilterGroups (datasets : list Dataset) : FilterGroups :=
  let groups := collectValues datasets in
  [ ("scene", FlatGroup "scene" (scene_values groups));
    ("robot", FlatGroup "robot" (robot_values groups));
    ("end", FlatGroup "end effector" (end_values groups));
    ("action", FlatGroup "action" (action_values groups));
    ("object", HierarchicalGroup "operation object" (object_values groups)) ].

(** ** The state of the filter manager *)

(** An entry of [filterFinderMatches]: the option element (its position among
    the rendered options) and its label. *)
Record Match := mkMatch {
  element : nat;
  text : string
}.

(** The fields of [this] that the filter logic reads and writes, together
    with the timers of the event loop: [timers] holds the identifiers of the
    timeouts that are set and have neither fired nor been cleared, [nextTimer]
    is the identifier the next [setTimeout] returns, and [filtersChanged]
    counts the ['filtersChanged'] events dispatched so far. *)
Record State := mkState {
  datasets : list Dataset;
  filterGroups : FilterGroups;
  selectedFilters : JSSet;
  pendingFilterUpdate : option nat;
  filterFinderMatches : list Match;
  filterFinderCurrentIndex : Z;
  timers : list nat;
  nextTimer : nat;
  filtersChanged : nat
}.

Definition with_selectedFilters (st : State) (sel : JSSet) : State :=
  mkState (datasets st) (filterGroups st) sel (pendingFilterUpdate st)
          (filterFinderMatches st) (filterFinderCurrentIndex st)
          (timers st) (nextTimer st) (filtersChanged st).

Definition with_finder (st : State) (matches : list Match) (index : Z) : State :=
  mkState (datasets st) (filterGroups st) (selectedFilters st) (pendingFilterUpdate st)
          matches index (timers st) (nextTimer st) (filtersChanged st).

Definition with_timers (st : State) (pending : option nat) (live : list nat)
    (next : nat) : State :=
  mkState (datasets st) (filterGroups st) (selectedFilters st) pending
          (filterFinderMatches st) (filterFinderCurrentIndex st)
          live next (filtersChanged st).

(** The constructor, in a page whose next timer identifier is [1]
    (identifiers of timeouts are positive). *)
Definition newFilterManager (ds : list Dataset) : State :=
  mkState ds [] [] None [] (-1)%Z [] 1 0.

(** ** Debounced recomputation *)

(** [if (this.pendingFilterUpdate)]: [null] and [0] are falsy. *)
Definition pendingIsSet (st : State) : bool :=
  match pendingFilterUpdate st with
  | Some (S _) => true
  | _ => false
  end.

(** [clearTimeout(id)] *)
Definition clearTimeout (live : list nat) (id : option nat) : list nat :=
  match id with
  | Some t => filter (fun t' => negb (Nat.eqb t t')) live
  | None => live
  end.

(** [scheduleFilterUpdate()] *)
Definition scheduleFilterUpdate (st : State) : State :=
  let live := if pendingIsSet st then clearTimeout (timers st) (pendingFilterUpdate st)
              else timers st in
  with_timers st (Some (nextTimer st)) (live ++ [nextTimer st]) (S (nextTimer st)).

(** The callback given to [setTimeout], run when timer [t] fires. *)
Definition fireTimer (st : State) (t : nat) : State :=
  mkState (datasets st) (filterGroups st) (selectedFilters st) None
          (filterFinderMatches st) (filterFinderCurrentIndex st)
          (filter (fun t' => negb (Nat.eqb t t')) (timers st)) (nextTimer st)
          (S (filtersChanged st)).

(** ** Selection state *)

(** [`${filterKey}:${filterValue}`] *)
Definition filterIdOf (filterKey filterValue : string) : string :=
  filterKey ++ ":" ++ filterValue.

(** [toggleFilterSelection(filterKey, filterValue, ...)] *)
Definition toggleFilterSelection (st : State) (filterKey filterValue : string) : State :=
  let filterId := filterIdOf filterKey filterValue in
  let st' :=
    if StrSet.has (selectedFilters st) filterId
    then with_selectedFilters st (StrSet.delete (selectedFilters st) filterId)
    else with_selectedFilters st (StrSet.add (selectedFilters st) filterId) in
  scheduleFilterUpdate st'.

(** [removeFilterTagById(filterId)] *)
Definition removeFilterTagById (st : State) (filterId : string) : State :=
  scheduleFilterUpdate (with_selectedFilters st (StrSet.delete (selectedFilters st) filterId)).

(** The callback of [selectAllInHierarchy] for the entry [(value, node)]. *)
Fixpoint selectAllInNode (groupKey value : string) (node : HierarchyNode)
    (selected : JSSet) : JSSet :=
  match node with
  | mkNode ch leaf =>
      let selected' :=
        if leaf then StrSet.add selected (filterIdOf groupKey value) else selected in
      if (0 <? length ch)%nat
      then fold_left (fun sel entry => selectAllInNode groupKey (fst entry) (snd entry) sel)
                     ch selected'
      else selected'
  end.

(** [selectAllInHierarchy(groupKey, hierarchyMap, parentPath)] *)
Definition selectAllInHierarchy (groupKey : string) (hierarchyMap : Hierarchy)
    (selected : JSSet) : JSSet :=
  fold_left (fun sel entry => selectAllInNode groupKey (fst entry) (snd entry) sel)
            hierarchyMap selected.

(** [selectAllInGroup(groupKey)] *)
Definition selectAllInGroup (st : State) (groupKey : string) : State :=
  match group_of (filterGroups st) groupKey with
  | None => st
  | Some group =>
      let selected :=
        match group with
        | FlatGroup _ values =>
            fold_left (fun sel value => StrSet.add sel (filterIdOf groupKey value))
                      values (selectedFilters st)
        | HierarchicalGroup _ values =>
            selectAllInHierarchy groupKey values (selectedFilters st)
        end in
      scheduleFilterUpdate (with_selectedFilters st selected)
  end.

(** [clearGroup(groupKey)] *)
Definition clearGroup (st : State) (groupKey : string) : State :=
  let filtersToRemove :=
    filter (fun filterId => String.eqb (fst (parseFilterId filterId)) groupKey)
           (selectedFilters st) in
  scheduleFilterUpdate
    (with_selectedFilters st (fold_left StrSet.delete filtersToRemove (selectedFilters st))).

(** The callback of [selectLeafNodesRecursive] for the entry [(value, node)]. *)
Fixpoint selectLeafNode (groupKey value : string) (node : HierarchyNode)
    (selected : JSSet) : JSSet :=
  match node with
  | mkNode ch leaf =>
      let selected' :=
        if leaf || (length ch =? 0)%nat
        then StrSet.add selected (filterIdOf groupKey value) else selected in
      if (0 <? length ch)%nat
      then fold_left (fun sel entry => selectLeafNode groupKey (fst entry) (snd entry) sel)
                     ch selected'
      else selected'
  end.

(** [selectLeafNodesRecursive(groupKey, hierarchyMap, parentPath)] *)
Definition selectLeafNodesRecursive (groupKey : string) (hierarchyMap : Hierarchy)
    (selected : JSSet) : JSSet :=
  fold_left (fun sel entry => selectLeafNode groupKey (fst entry) (snd entry) sel)
            hierarchyMap selected.

(** The callback of [clearLeafNodesRecursive] for the entry [(value, node)]. *)
Fixpoint clearLeafNode (groupKey value : string) (node : HierarchyNode)
    (selected : JSSet) : JSSet :=
  match node with
  | mkNode ch leaf =>
      let selected' :=
        if leaf || (length ch =? 0)%nat
        then StrSet.delete selected (filterIdOf groupKey value) else selected in
      if (0 <? length ch)%nat
      then fold_left (fun sel entry => clearLeafNode groupKey (fst entry) (snd entry) sel)
                     ch selected'
      else selected'
  end.

(** [clearLeafNodesRecursive(groupKey, hierarchyMap, parentPath)] *)
Definition clearLeafNodesRecursive (groupKey : string) (hierarchyMap : Hierarchy)
    (selected : JSSet) : JSSet :=
  fold_left (fun sel entry => clearLeafNode groupKey (fst entry) (snd entry) sel)
            hierarchyMap selected.

(** The node that [selectAllChildrenInHierarchy] and
    [clearAllChildrenInHierarchy] work on, when the group is hierarchical and
    the path leads to a node. *)
Definition hierarchyNodeAt (st : State) (groupKey path : string) : option HierarchyNode :=
  match group_of (filterGroups st) groupKey with
  | Some (HierarchicalGroup _ values) => findHierarchyNode values path
  | _ => None
  end.

(** [selectAllChildrenInHierarchy(groupKey, path)] *)
Definition selectAllChildrenInHierarchy (st : State) (groupKey path : string) : State :=
  match hierarchyNodeAt st groupKey path with
  | None => st
  | Some node =>
      scheduleFilterUpdate
        (with_selectedFilters st
           (selectLeafNodesRecursive groupKey (children node) (selectedFilters st)))
  end.

(** [clearAllChildrenInHierarchy(groupKey, path)] *)
Definition clearAllChildrenInHierarchy (st : State) (groupKey path : string) : State :=
  match hierarchyNodeAt st groupKey path with
  | None => st
  | Some node =>
      scheduleFilterUpdate
        (with_selectedFilters st
           (clearLeafNodesRecursive groupKey (children node) (selectedFilters st)))
  end.

(** [resetFilters()] *)
Definition resetFilters (st : State) : State :=
  let st1 :=
    if pendingIsSet st
    then with_timers st None (clearTimeout (timers st) (pendingFilterUpdate st)) (nextTimer st)
    else st in
  let st2 := with_selectedFilters st1 (StrSet.clear (selectedFilters st1)) in
  scheduleFilterUpdate st2.

(** ** Filter Finder *)

(** [clearFilterSearch()] *)
Definition clearFilterSearch (st : State) : State :=
  with_finder st [] (-1)%Z.

(** The first pass of [searchFilterOptions] over the rendered options:
    [options] are the options from position [i] on, each with the trimmed text
    of its label element, [None] when it has none. *)
Fixpoint findMatches (queryLower : string) (options : list (option string)) (i : nat)
  : list Match :=
  match options with
  | [] => []
  | None :: rest => findMatches queryLower rest (S i)
  | Some label :: rest =>
      if includes (toLowerCase label) queryLower
      then mkMatch i label :: findMatches queryLower rest (S i)
      else findMatches queryLower rest (S i)
  end.

(** [searchFilterOptions(query)]; [filterContent] is the options panel,
    [None] when the page has no such element. *)
Definition searchFilterOptions (st : State) (filterContent : option (list (option string)))
    (query : string) : State :=
  let st1 := clearFilterSearch st in
  match filterContent with
  | None => st1
  | Some allOptions =>
      if negb (truthy query) then with_finder st1 [] (filterFinderCurrentIndex st1)
      else
        let matches := findMatches (toLowerCase query) allOptions 0 in
        if (0 <? length matches)%nat
        then with_finder st1 matches 0%Z
        else with_finder st1 matches (filterFinderCurrentIndex st1)
  end.

(** A method that can throw returns [None] for the exception. Reading
    [.element] of [this.filterFinderMatches[i]] throws when the array has no
    entry at [i]. *)
Definition matchElementAt (matches : list Match) (i : Z) : option nat :=
  if (i <? 0)%Z then None
  else option_map element (nth_error matches (Z.to_nat i)).

Definition indexInRange (st : State) : bool :=
  ((0 <=? filterFinderCurrentIndex st)
   && (filterFinderCurrentIndex st <? Z.of_nat (length (filterFinderMatches st))))%Z.

(** [highlightCurrentMatch()] *)
Definition highlightCurrentMatch (st : State) : option State :=
  if negb (indexInRange st) then Some st
  else match matchElementAt (filterFinderMatches st) (filterFinderCurrentIndex st) with
       | Some _ => Some st
       | None => None
       end.

(** [navigateFilterMatch(direction)]; [%] is the remainder that takes the
    sign of the dividend. *)
Definition navigateFilterMatch (st : State) (direction : string) : option State :=
  let len := Z.of_nat (length (filterFinderMatches st)) in
  if (len =? 0)%Z then Some st
  else
    let unmarked :=
      if indexInRange st
      then matchElementAt (filterFinderMatches st) (filterFinderCurrentIndex st)
      else Some 0%nat in
    match unmarked with
    | None => None
    | Some _ =>
        let index :=
          if String.eqb direction "next"
          then Z.rem (filterFinderCurrentIndex st + 1) len
          else Z.rem (filterFinderCurrentIndex st - 1 + len) len in
        highlightCurrentMatch (with_finder st (filterFinderMatches st) index)
    end.

(** What [updateFilterFinderUI] displays: the position and the total. *)
Definition filterFinderDisplay (st : State) : Z * Z :=
  let total := Z.of_nat (length (filterFinderMatches st)) in
  ((if (0 <? total)%Z then filterFinderCurrentIndex st + 1 else 0)%Z, total).

(** [selectCategory(categoryKey)] as far as it touches the state; [query] is
    the trimmed value of the finder's input, empty when there is no input. *)
Definition selectCategory (st : State) (filterContent : option (list (option string)))
    (query : string) : State :=
  let st1 := clearFilterSearch st in
  if truthy query then searchFilterOptions st1 filterContent query else st1.

(** [buildFilterGroups()] on the state: the groups are stored and the first
    category is selected. *)
Definition buildFilterGroupsOn (st : State) (filterContent : option (list (option string)))
    (query : string) : State :=
  let st1 :=
    mkState (datasets st) (buildFilterGroups (datasets st)) (selectedFilters st)
            (pendingFilterUpdate st) (filterFinderMatches st)
            (filterFinderCurrentIndex st) (timers st) (nextTimer st) (filtersChanged st) in
  selectCategory st1 filterContent query.

(** ** The page as a transition system *)

(** What can happen to a filter manager: a call of one of its methods by an
    event handler, or a timer of the event loop firing. *)
Inductive Event :=
| EvBuild (filterContent : option (list (option string))) (query : string)
| EvToggle (filterKey filterValue : string)
| EvRemoveTag (filterId : string)
| EvSelectAll (groupKey : string)
| EvClearGroup (groupKey : string)
| EvSelectChildren (groupKey path : string)
| EvClearChildren (groupKey path : string)
| EvReset
| EvSearch (filterContent : option (list (option string))) (query : string)
| EvClearSearch
| EvNavigate (direction : string)
| EvSelectCategory (filterContent : option (list (option string))) (query : string)
| EvTimeout (t : nat).

(** One event handled to completion. A timer fires only while it is live;
    an uncaught exception leaves no successor state. *)
Inductive step : State -> Event -> State -> Prop :=
| step_build st fc q : step st (EvBuild fc q) (buildFilterGroupsOn st fc q)
| step_toggle st k v : step st (EvToggle k v) (toggleFilterSelection st k v)
| step_remove st id : step st (EvRemoveTag id) (removeFilterTagById st id)
| step_select_all st g : step st (EvSelectAll g) (selectAllInGroup st g)
| step_clear_group st g : step st (EvClearGroup g) (clearGroup st g)
| step_select_children st g p :
    step st (EvSelectChildren g p) (selectAllChildrenInHierarchy st g p)
| step_clear_children st g p :
    step st (EvClearChildren g p) (clearAllChildrenInHierarchy st g p)
| step_reset st : step st EvReset (resetFilters st)
| step_search st fc q : step st (EvSearch fc q) (searchFilterOptions st fc q)
| step_clear_search st : step st EvClearSearch (clearFilterSearch st)
| step_navigate st d st' :
    navigateFilterMatch st d = Some st' -> step st (EvNavigate d) st'
| step_select_category st fc q :
    step st (EvSelectCategory fc q) (selectCategory st fc q)
| step_timeout st t :
    In t (timers st) -> step st (EvTimeout t) (fireTimer st t).

(** The states a run of events leads to, with the events in order. *)
Inductive run : State -> list Event -> State -> Prop :=
| run_nil st : run st [] st
| run_cons st ev st' evs st'' : step st ev st' -> run st' evs st'' -> run st (ev :: evs) st''.

(** The states of a page that started with a new filter manager. *)
Definition reachable (st : State) : Prop :=
  exists ds evs, run (newFilterManager ds) evs st.

(** ** Category counts and the static count table *)

(** [getCategoryItemCount(categoryKey)] *)
Definition getCategoryItemCount (groups : FilterGroups) (categoryKey : string) : nat :=
  match group_of groups categoryKey with
  | None => 0%nat
  | Some (FlatGroup _ values) => StrSet.size values
  | Some (HierarchicalGroup _ values) => countHierarchyItems values
  end.

(** [this.staticFilterCounts]: a [Map] from filter identifiers to counts, in
    insertion order. *)
Definition CountTable := list (string * nat).

Module Counts.

(** [table.get(id)], [undefined] as [None] *)
Fixpoint get (table : CountTable) (id : string) : option nat :=
  match table with
  | [] => None
  | (id', count) :: rest => if String.eqb id' id then Some count else get rest id
  end.

(** [table.set(id, count)]: an existing identifier keeps its place, a new one
    goes last. *)
Fixpoint set (table : CountTable) (id : string) (count : nat) : CountTable :=
  match table with
  | [] => [(id, count)]
  | (id', count') :: rest =>
      if String.eqb id' id then (id', count) :: rest
      else (id', count') :: set rest id count
  end.

End Counts.

(** The callback of [calculateStaticHierarchyCounts] for the entry
    [(value, node)]. *)
Fixpoint staticCountsNode (datasets : list Dataset) (key value : string)
    (node : HierarchyNode) (table : CountTable) : CountTable :=
  match node with
  | mkNode ch _ =>
      let table' :=
        Counts.set table (filterIdOf key value) (calculateAffectedCount datasets key value) in
      if (0 <? length ch)%nat
      then fold_left (fun t entry => staticCountsNode datasets key (fst entry) (snd entry) t)
                     ch table'
      else table'
  end.

(** [calculateStaticHierarchyCounts(key, hierarchyMap)] *)
Definition calculateStaticHierarchyCounts (datasets : list Dataset) (key : string)
    (hierarchyMap : Hierarchy) (table : CountTable) : CountTable :=
  fold_left (fun t entry => staticCountsNode datasets key (fst entry) (snd entry) t)
            hierarchyMap table.

(** The counts of one group written into the table: the body shared by
    [updateStaticCountsForCategory] and the loop of
    [calculateStaticFilterCounts]. *)
Definition staticCountsOfGroup (datasets : list Dataset) (key : string)
    (group : FilterGroup) (table : CountTable) : CountTable :=
  match group with
  | FlatGroup _ values =>
      fold_left (fun t value =>
                   Counts.set t (filterIdOf key value)
                              (calculateAffectedCount datasets key value))
                values table
  | HierarchicalGroup _ values => calculateStaticHierarchyCounts datasets key values table
  end.

(** [updateStaticCountsForCategory(categoryKey)], as far as it writes the
    table. *)
Definition updateStaticCountsForCategory (datasets : list Dataset) (groups : FilterGroups)
    (table : CountTable) (categoryKey : string) : CountTable :=
  match group_of groups categoryKey with
  | None => table
  | Some group => staticCountsOfGroup datasets categoryKey group table
  end.

(** [calculateStaticFilterCounts()]: the table is cleared and filled from
    [Object.entries(this.filterGroups)]. *)
Definition calculateStaticFilterCounts (datasets : list Dataset) (groups : FilterGroups)
  : CountTable :=
  fold_left (fun t entry => staticCountsOfGroup datasets (fst entry) (snd entry) t)
            groups [].

(** [getStaticCount(filterKey, filterValue)]: [get(...) || 0] *)
Definition getStaticCount (table : CountTable) (filterKey filterValue : string) : nat :=
  match Counts.get table (filterIdOf filterKey filterValue) with
  | Some count => count
  | None => 0%nat
  end.

(** ** The selection of datasets (docs/js/modules/event-handlers.js) *)

(** The two sets of dataset paths that the event handlers keep in step:
    [this.selectedDatasets] and [this.managers.selectionPanel.listDatasets]. *)
Record Cart := mkCart {
  selectedDatasets : JSSet;
  listDatasets : JSSet
}.

(** [toggleSelection(path)], as far as it changes the two sets. *)
Definition toggleSelection (cart : Cart) (p : string) : Cart :=
  if StrSet.has (selectedDatasets cart) p
  then mkCart (StrSet.delete (selectedDatasets cart) p) (StrSet.delete (listDatasets cart) p)
  else mkCart (StrSet.add (selectedDatasets cart) p) (StrSet.add (listDatasets cart) p).

(** [selectAllFiltered()]; [searchBox] is the value of the search box, empty
    when there is none. *)
Definition selectAllFiltered (st : State) (searchBox : string) (cart : Cart) : Cart :=
  fold_left (fun c ds =>
               mkCart (StrSet.add (selectedDatasets c) (path ds))
                      (StrSet.add (listDatasets c) (path ds)))
            (applyFilters (datasets st) (selectedFilters st) searchBox) cart.

(** [deselectAllFiltered()] *)
Definition deselectAllFiltered (st : State) (searchBox : string) (cart : Cart) : Cart :=
  fold_left (fun c ds =>
               mkCart (StrSet.delete (selectedDatasets c) (path ds))
                      (StrSet.delete (listDatasets c) (path ds)))
            (applyFilters (datasets st) (selectedFilters st) searchBox) cart.

(** * Definitions used to state the properties *)

(** ** The contract of the filter evaluator *)

(** The facet keys, as [buildFilterGroups] and [renderCategoriesSidebar]
    list them. *)
Definition facetKeys : list string := ["scene"; "robot"; "end"; "action"; "object"].

(** A selection as the specification has it: pairs of a facet key and a
    value. *)
Definition Selection := list (string * string).

(** The selection set that holds the entries of a selection. *)
Definition selectionSet (sel : Selection) : JSSet :=
  fold_left (fun s entry => StrSet.add s (filterIdOf (fst entry) (snd entry))) sel [].


(** The per-facet match of the contract: membership in [scenes] and
    [actions], membership in [robot] with a scalar taken as a one-element
    list, equality with [endEffector], and for [object] some entry whose
    hierarchy holds the value at any depth. *)
Definition recordMatches (facet value : string) (ds : Dataset) : bool :=
  if String.eqb facet "scene" then
    match scenes ds with Some l => existsb (String.eqb value) l | None => false end
  else if String.eqb facet "action" then
    match actions ds with Some l => existsb (String.eqb value) l | None => false end
  else if String.eqb facet "robot" then
    match robot ds with
    | Some (RobotArray rs) => existsb (String.eqb value) rs
    | Some (RobotString r) => existsb (String.eqb value) [r]
    | None => false
    end
  else if String.eqb facet "end" then
    match endEffector ds with Some e => String.eqb e value | None => false end
  else if String.eqb facet "object" then
    match objects ds with
    | Some objs => existsb (fun obj => existsb (String.eqb value) (hierarchy obj)) objs
    | None => false
    end
  else false.

(** The values selected for one facet. *)
Definition selectedValuesOf (sel : Selection) (facet : string) : list string :=
  map snd (filter (fun entry => String.eqb (fst entry) facet) sel).

(** The contract of the evaluator for one record: the query is empty or
    occurs in the name whatever the case of the letters, and every facet with
    a selected value has a selected value that the record matches. *)
Definition recordPasses (sel : Selection) (query : string) (ds : Dataset) : bool :=
  (String.eqb query "" || includes (toLowerCase (name ds)) (toLowerCase query))
  && forallb (fun facet =>
                match selectedValuesOf sel facet with
                | [] => true
                | values => existsb (fun value => recordMatches facet value ds) values
                end)
             facetKeys.

(** The contract of the evaluator: the records that pass, in catalog order. *)
Definition filteredRecords (catalog : list Dataset) (sel : Selection) (query : string)
  : list Dataset :=
  filter (recordPasses sel query) catalog.

(** [filters[key]], [undefined] as [None] *)
Fixpoint filters_get (filters : Filters) (key : string) : option (list (option string)) :=
  match filters with
  | [] => None
  | (k, values) :: rest => if String.eqb k key then Some values else filters_get rest key
  end.

(** ** Paths and nodes of a hierarchy *)

(** The node reached from [m] by descending through the labels of [labels]
    in order, [None] when a label is missing on the way or there is no
    label. *)
Fixpoint nodeAt (m : Hierarchy) (labels : list string) : option HierarchyNode :=
  match labels with
  | [] => None
  | label :: rest =>
      match HMap.get m label with
      | None => None
      | Some node =>
          match rest with
          | [] => Some node
          | _ :: _ => nodeAt (children node) rest
          end
      end
  end.

(** Descending through [labels] reaches a node. *)
Definition hasNode (m : Hierarchy) (labels : list string) : bool :=
  match nodeAt m labels with Some _ => true | None => false end.

(** The path has a label. *)
Definition nonEmpty (labels : list string) : bool :=
  match labels with [] => false | _ :: _ => true end.

(** The hierarchy after the paths have been inserted in order into an empty
    one. *)
Definition insertAll (paths : list (list string)) : Hierarchy :=
  fold_left addToHierarchy paths [].

(** [p] is an initial part of [q]. *)
Fixpoint isPrefix (p q : list string) : bool :=
  match p, q with
  | [], _ => true
  | _ :: _, [] => false
  | a :: p', b :: q' => String.eqb a b && isPrefix p' q'
  end.

(** [p] is an initial part of [q] and shorter than [q]. *)
Definition properPrefix (p q : list string) : bool :=
  isPrefix p q && (length p <? length q)%nat.

(** The paths of [paths] that no path of [paths] extends. *)
Definition maximalPaths (paths : list (list string)) : list (list string) :=
  filter (fun p => negb (existsb (properPrefix p) paths)) paths.

(** The number of different paths in a list. *)
Definition distinctCount (paths : list (list string)) : nat :=
  length (nodup (list_eq_dec string_dec) paths).

(** Equality of two paths. *)
Fixpoint pathEqb (p q : list string) : bool :=
  match p, q with
  | [], [] => true
  | a :: p', b :: q' => String.eqb a b && pathEqb p' q'
  | _, _ => false
  end.

(** The flag of the node a path leads to, as the order of insertion decides
    it: the first inserted path that passes through the node creates it, and
    marks it when it ends there. *)
Definition markedBy (paths : list (list string)) (p : list string) : bool :=
  match find (isPrefix p) paths with
  | Some q => pathEqb p q
  | None => false
  end.

(** The labels of a map, in order. *)
Definition keys (m : Hierarchy) : list string := map fst m.

(** No map below the node holds a label twice. *)
Inductive wfNode : HierarchyNode -> Prop :=
| wfNode_intro ch leaf :
    NoDup (keys ch) -> Forall (fun entry => wfNode (snd entry)) ch ->
    wfNode (mkNode ch leaf).

(** No map of the hierarchy holds a label twice. *)
Definition wf (m : Hierarchy) : Prop :=
  NoDup (keys m) /\ Forall (fun entry => wfNode (snd entry)) m.

(** The paths from the top of a hierarchy to its nodes without children;
    [leafPathsNode label node] are those through the entry [(label, node)]. *)
Fixpoint leafPathsNode (label : string) (node : HierarchyNode) : list (list string) :=
  match node with
  | mkNode ch _ =>
      match ch with
      | [] => [[label]]
      | _ :: _ =>
          map (cons label) (flat_map (fun entry => leafPathsNode (fst entry) (snd entry)) ch)
      end
  end.

(** The paths to the nodes without children of a whole hierarchy. *)
Definition leafPaths (m : Hierarchy) : list (list string) :=
  flat_map (fun entry => leafPathsNode (fst entry) (snd entry)) m.

(** Induction on a node with the property at hand for all its children. *)
Section HierarchyInduction.

Variable P : HierarchyNode -> Prop.
Hypothesis P_node :
  forall ch leaf, Forall (fun entry => P (snd entry)) ch -> P (mkNode ch leaf).

Fixpoint HierarchyNode_nested_ind (node : HierarchyNode) : P node :=
  match node with
  | mkNode ch leaf =>
      P_node ch leaf
        ((fix entries (l : list (string * HierarchyNode))
            : Forall (fun entry => P (snd entry)) l :=
            match l with
            | [] => Forall_nil _
            | (k, child) :: rest =>
                Forall_cons (k, child) (HierarchyNode_nested_ind child) (entries rest)
            end) ch)
  end.

End HierarchyInduction.

(** ** The facet index *)

(** The scenes one record contributes to the [scene] group. *)
Definition sceneList (ds : Dataset) : list string :=
  match scenes ds with Some l => l | None => [] end.

(** The robots one record contributes to the [robot] group. *)
Definition robotList (ds : Dataset) : list string :=
  match robot ds with
  | Some (RobotArray rs) => rs
  | Some (RobotString r) => if truthy r then [r] else []
  | None => []
  end.

(** The end effector one record contributes to the [end] group. *)
Definition endList (ds : Dataset) : list string :=
  match endEffector ds with
  | Some e => if truthy e then [e] else []
  | None => []
  end.

(** The actions one record contributes to the [action] group. *)
Definition actionList (ds : Dataset) : list string :=
  match actions ds with Some l => l | None => [] end.

(** The paths one record contributes to the [object] group. *)
Definition objectPaths (ds : Dataset) : list (list string) :=
  match objects ds with Some objs => map hierarchy objs | None => [] end.

(** The values of a flat group. *)
Definition flatValues (groups : FilterGroups) (key : string) : JSSet :=
  match group_of groups key with
  | Some (FlatGroup _ values) => values
  | _ => []
  end.

(** The hierarchy of the [object] group. *)
Definition objectHierarchy (groups : FilterGroups) : Hierarchy :=
  match group_of groups "object" with
  | Some (HierarchicalGroup _ values) => values
  | _ => []
  end.

(** ** Selection, timers and the Filter Finder *)

(** What a traversal adds does not depend on the set it adds to. *)
Definition adds_only (f : JSSet -> JSSet) : Prop :=
  exists ids, forall sel, f sel = fold_left StrSet.add ids sel.

(** The pending slot names the only live timer, and identifiers are positive
    and below the next one to be handed out. *)
Definition timers_ok (st : State) : Prop :=
  (1 <= nextTimer st)%nat /\
  match pendingFilterUpdate st with
  | Some t => timers st = [t] /\ (1 <= t < nextTimer st)%nat
  | None => timers st = []
  end.

(** Every live timer, and every timer still to be set, has an identifier of
    at least [b]. *)
Definition timers_from (b : nat) (st : State) : Prop :=
  (forall t, In t (timers st) -> (b <= t)%nat) /\ (b <= nextTimer st)%nat.

(** The current index points into the match list, or the list is empty and
    the index is the sentinel. *)
Definition finder_ok (st : State) : Prop :=
  (filterFinderMatches st = [] /\ filterFinderCurrentIndex st = (-1)%Z)
  \/ indexInRange st = true.

(** The index [navigateFilterMatch] moves to. *)
Definition nextIndex (st : State) (direction : string) : Z :=
  let len := Z.of_nat (length (filterFinderMatches st)) in
  if String.eqb direction "next"
  then Z.rem (filterFinderCurrentIndex st + 1) len
  else Z.rem (filterFinderCurrentIndex st - 1 + len) len.

(** [count] calls of [navigateFilterMatch(direction)] in a row. *)
Fixpoint navigateTimes (count : nat) (direction : string) (st : State) : option State :=
  match count with
  | O => Some st
  | S count' =>
      match navigateFilterMatch st direction with
      | Some st' => navigateTimes count' direction st'
      | None => None
      end
  end.

(** ** Example inputs *)

(** A page on which one facet value has been toggled: a recomputation is
    pending. *)
Definition toggledOnce : State :=
  toggleFilterSelection (newFilterManager []) "scene" "kitchen".

(** A page whose finder has searched three options for the letter "a". *)
Definition searchedOnce : State :=
  searchFilterOptions (newFilterManager [])
    (Some [Some "hammer"; Some "saw"; Some "tool"]) "a".

(** A record with a scene whose name holds a colon. *)
Definition benchRecord : Dataset :=
  mkDataset "ds/bench" "bench pick" (Some ["lab:bench"]) None None None None.

(** A record with the scene that the part before that colon names. *)
Definition labRecord : Dataset :=
  mkDataset "ds/lab" "lab pour" (Some ["lab"]) None None None None.

(** A record with that scene and another. *)
Definition officeRecord : Dataset :=
  mkDataset "ds/office" "office wipe" (Some ["lab"; "office"]) None None None None.

(** The catalog of these three records. *)
Definition colonCatalog : list Dataset := [benchRecord; labRecord; officeRecord].

(** A record whose object lies below [tool] in the hierarchy. *)
Definition hammerRecord : Dataset :=
  mkDataset "ds/hammer" "hammer nail" None None None None
            (Some [mkObjectRef "hammer" ["tool"; "hammer"]]).

(** A record whose object is [tool] itself. *)
Definition toolRecord : Dataset :=
  mkDataset "ds/tool" "tool sort" None None None None
            (Some [mkObjectRef "tool" ["tool"]]).

(** The two paths of one branch. *)
Definition branchPaths : list (list string) := [["tool"]; ["tool"; "hammer"]].

(** The three records of the first scenario of the specification. *)
Definition recordA : Dataset := mkDataset "A" "A" (Some ["kitchen"]) None None None None.

Definition recordB : Dataset :=
  mkDataset "B" "B" (Some ["kitchen"; "office"]) None None None None.

Definition recordC : Dataset := mkDataset "C" "C" (Some ["office"]) None None None None.

(** ** What the records contribute to a flat group *)

(** The values that [buildFilterGroups] adds to the flat group [key] for one
    record: the elements of [scenes], of [actions] and of an array [robot], a
    non-empty scalar [robot], a non-empty [endEffector]. *)
Definition contributed (key : string) (ds : Dataset) : list string :=
  if String.eqb key "scene" then sceneList ds
  else if String.eqb key "robot" then robotList ds
  else if String.eqb key "end" then endList ds
  else if String.eqb key "action" then actionList ds
  else [].

(** The number of different strings in a list. *)
Definition distinctValues (values : list string) : nat :=
  length (nodup string_dec values).

(** ** Traversals of a hierarchy *)

(** The traversal that [selectAllInHierarchy], [selectLeafNodesRecursive],
    [clearLeafNodesRecursive] and [calculateStaticHierarchyCounts] share: the
    entries of a map in order, each node before its children, [op] applied
    with the label of every node that passes [test]. *)
Fixpoint walkNode {S : Type} (test : HierarchyNode -> bool) (op : string -> S -> S)
    (value : string) (node : HierarchyNode) (s : S) : S :=
  match node with
  | mkNode ch leaf =>
      let s' := if test (mkNode ch leaf) then op value s else s in
      if (0 <? length ch)%nat
      then fold_left (fun acc entry => walkNode test op (fst entry) (snd entry) acc) ch s'
      else s'
  end.

(** The traversal of a whole map. *)
Definition walk {S : Type} (test : HierarchyNode -> bool) (op : string -> S -> S)
    (m : Hierarchy) (s : S) : S :=
  fold_left (fun acc entry => walkNode test op (fst entry) (snd entry) acc) m s.

(** The paths, in the order of the traversal, to the nodes that pass [test];
    [pathsWhereNode test label node] are those through the entry
    [(label, node)]. *)
Fixpoint pathsWhereNode (test : HierarchyNode -> bool) (label : string)
    (node : HierarchyNode) : list (list string) :=
  match node with
  | mkNode ch leaf =>
      (if test (mkNode ch leaf) then [[label]] else [])
      ++ map (cons label)
             (flat_map (fun entry => pathsWhereNode test (fst entry) (snd entry)) ch)
  end.

(** The paths to the nodes of a map that pass [test]. *)
Definition pathsWhere (test : HierarchyNode -> bool) (m : Hierarchy) : list (list string) :=
  flat_map (fun entry => pathsWhereNode test (fst entry) (snd entry)) m.

(** The label a path ends with. *)
Definition lastLabel (p : list string) : string := last p EmptyString.



(** * Properties *)

(** ** Induction on hierarchies *)

(** Induction on a hierarchy map: the empty map, and a first entry whose
    children and whose following entries have the property. *)
Lemma Hierarchy_ind2 (Q : Hierarchy -> Prop) :
  Q [] ->
  (forall k ch leaf rest, Q ch -> Q rest -> Q ((k, mkNode ch leaf) :: rest)) ->
  forall m, Q m.
Proof.
  intros Hnil Hcons.
  assert (Hnode : forall node, Q (children node)).
  { induction node as [ch leaf IH] using HierarchyNode_nested_ind. simpl.
    induction IH as [|[k [ch' leaf']] rest Hhead _ IHrest].
    - exact Hnil.
    - apply Hcons; [exact Hhead | exact IHrest]. }
  intro m. exact (Hnode (mkNode m false)).
Qed.

(** ** Sets of strings *)

Module StrSetFacts.
Import StrSet.

Lemma has_app s t x : has (s ++ t) x = has s x || has t x.
Proof. unfold has, arr_includes. apply existsb_app. Qed.

Lemma has_add s x y : has (add s x) y = has s y || String.eqb x y.
Proof.
  unfold add. destruct (has s x) eqn:Hx.
  - destruct (String.eqb_spec x y) as [->|_].
    + rewrite Hx. reflexivity.
    + rewrite orb_false_r. reflexivity.
  - rewrite has_app. unfold has at 2, arr_includes. simpl.
    rewrite orb_false_r, (String.eqb_sym y x). reflexivity.
Qed.

Lemma has_delete s x y : has (delete s x) y = has s y && negb (String.eqb x y).
Proof.
  unfold delete, has, arr_includes. induction s as [|z s IH]; simpl.
  - reflexivity.
  - destruct (String.eqb_spec x z) as [->|Hxz]; simpl.
    + rewrite IH. destruct (String.eqb_spec y z) as [->|Hyz]; simpl.
      * rewrite String.eqb_refl. simpl. rewrite andb_false_r. reflexivity.
      * reflexivity.
    + rewrite IH. destruct (String.eqb_spec y z) as [->|Hyz]; simpl.
      * destruct (String.eqb_spec x z); [contradiction | reflexivity].
      * reflexivity.
Qed.

Lemma add_present s x : has s x = true -> add s x = s.
Proof. unfold add. intros ->. reflexivity. Qed.

Lemma has_fold_add ids : forall s x,
  has (fold_left add ids s) x = has s x || arr_includes ids x.
Proof.
  induction ids as [|i ids IH]; intros s x; simpl.
  - rewrite orb_false_r. reflexivity.
  - rewrite IH, has_add, <- orb_assoc.
    unfold arr_includes at 2. simpl. rewrite (String.eqb_sym x i). reflexivity.
Qed.

(** Adding again what has been added changes nothing. *)
Lemma fold_add_absorb ids : forall s,
  (forall i, In i ids -> has s i = true) -> fold_left add ids s = s.
Proof.
  induction ids as [|i ids IH]; intros s Hs; simpl.
  - reflexivity.
  - rewrite (add_present s i) by (apply Hs; left; reflexivity).
    apply IH. intros j Hj. apply Hs. right. exact Hj.
Qed.

Lemma arr_includes_In ids x : arr_includes ids x = true <-> In x ids.
Proof.
  unfold arr_includes. rewrite existsb_exists. split.
  - intros [y [Hy Heq]]. apply String.eqb_eq in Heq. subst. exact Hy.
  - intros Hx. exists x. split; [exact Hx | apply String.eqb_refl].
Qed.

Lemma fold_add_twice ids s :
  fold_left add ids (fold_left add ids s) = fold_left add ids s.
Proof.
  apply fold_add_absorb. intros i Hi.
  rewrite has_fold_add. apply orb_true_iff. right.
  apply arr_includes_In. exact Hi.
Qed.

End StrSetFacts.

(** ** Selection state: toggling and selecting all *)

Section SelectionFacts.
Import StrSet StrSetFacts.

Lemma selectedFilters_schedule st :
  selectedFilters (scheduleFilterUpdate st) = selectedFilters st.
Proof. reflexivity. Qed.

Lemma filterGroups_schedule st :
  filterGroups (scheduleFilterUpdate st) = filterGroups st.
Proof. reflexivity. Qed.

Lemma adds_only_entries (g : string) (visit : string -> HierarchyNode -> JSSet -> JSSet)
    (ch : Hierarchy) :
  Forall (fun entry => forall value, adds_only (visit value (snd entry))) ch ->
  adds_only (fold_left (fun sel entry => visit (fst entry) (snd entry) sel) ch).
Proof.
  induction 1 as [|[k child] rest Hhead _ [ids Hids]].
  - exists []. reflexivity.
  - destruct (Hhead k) as [ids0 Hids0]. exists (ids0 ++ ids).
    intro sel. simpl. rewrite Hids, Hids0, fold_left_app. reflexivity.
Qed.

Lemma selectAllInNode_adds g node :
  forall value, adds_only (selectAllInNode g value node).
Proof.
  induction node as [ch leaf IH] using HierarchyNode_nested_ind.
  intro value.
  destruct (adds_only_entries g (selectAllInNode g) ch IH) as [ids Hids].
  exists ((if leaf then [filterIdOf g value] else [])
          ++ (if (0 <? length ch)%nat then ids else [])).
  intro sel. simpl. rewrite fold_left_app.
  destruct leaf; destruct (0 <? length ch)%nat; simpl; try rewrite Hids; reflexivity.
Qed.

Lemma selectAllInHierarchy_adds g m : adds_only (selectAllInHierarchy g m).
Proof.
  apply (adds_only_entries g (selectAllInNode g)).
  apply Forall_forall. intros entry _ value. apply selectAllInNode_adds.
Qed.

Lemma adds_only_idempotent f sel : adds_only f -> f (f sel) = f sel.
Proof. intros [ids Hids]. rewrite !Hids. apply fold_add_twice. Qed.

Lemma selectAllInGroup_twice st g :
  selectedFilters (selectAllInGroup (selectAllInGroup st g) g)
  = selectedFilters (selectAllInGroup st g).
Proof.
  unfold selectAllInGroup at 2.
  destruct (group_of (filterGroups st) g) as [group|] eqn:Hgroup.
  - unfold selectAllInGroup.
    rewrite filterGroups_schedule. cbn [filterGroups with_selectedFilters].
    rewrite Hgroup, !selectedFilters_schedule. cbn [selectedFilters with_selectedFilters].
    destruct group as [title values | title values].
    + apply (adds_only_idempotent
               (fold_left (fun sel value => add sel (filterIdOf g value)) values)).
      exists (map (filterIdOf g) values). clear Hgroup.
      induction values as [|v values IH]; intro sel; simpl.
      * reflexivity.
      * apply IH.
    + apply (adds_only_idempotent (selectAllInHierarchy g values)).
      apply selectAllInHierarchy_adds.
  - unfold selectAllInGroup. rewrite Hgroup. reflexivity.
Qed.

Lemma selectedFilters_toggle st f v :
  selectedFilters (toggleFilterSelection st f v)
  = if has (selectedFilters st) (filterIdOf f v)
    then delete (selectedFilters st) (filterIdOf f v)
    else add (selectedFilters st) (filterIdOf f v).
Proof.
  unfold toggleFilterSelection.
  destruct (has (selectedFilters st) (filterIdOf f v)); reflexivity.
Qed.

Lemma toggle_twice_has st f v x :
  has (selectedFilters (toggleFilterSelection (toggleFilterSelection st f v) f v)) x
  = has (selectedFilters st) x.
Proof.
  rewrite !selectedFilters_toggle.
  destruct (has (selectedFilters st) (filterIdOf f v)) eqn:Hin.
  - rewrite has_delete, Hin. simpl. rewrite String.eqb_refl. simpl.
    rewrite has_add, has_delete.
    destruct (String.eqb_spec (filterIdOf f v) x) as [<-|_]; simpl.
    + rewrite Hin. reflexivity.
    + rewrite andb_true_r, orb_false_r. reflexivity.
  - rewrite has_add, Hin. simpl. rewrite String.eqb_refl. simpl.
    rewrite has_delete, has_add.
    destruct (String.eqb_spec (filterIdOf f v) x) as [<-|_]; simpl.
    + rewrite Hin. reflexivity.
    + rewrite andb_true_r, orb_false_r. reflexivity.
Qed.

End SelectionFacts.

(** C7. Toggling the same facet value twice in succession gives back a
    selection set with the members of the original one, whatever the state,
    the facet key and the value; and selecting all values of a group twice
    leaves the selection set that selecting them once gives. *)
Theorem toggle_twice_and_selectAll_twice :
  forall (st : State) (f v g : string),
    StrSet.same
      (selectedFilters (toggleFilterSelection (toggleFilterSelection st f v) f v))
      (selectedFilters st)
    /\ selectedFilters (selectAllInGroup (selectAllInGroup st g) g)
       = selectedFilters (selectAllInGroup st g).
Proof.
  intros st f v g. split.
  - intro x. apply toggle_twice_has.
  - apply selectAllInGroup_twice.
Qed.

(** ** Debounced recomputation: the pending slot and the live timers *)

Section TimerFacts.

Lemma clearTimeout_single t : clearTimeout [t] (Some t) = [].
Proof. simpl. rewrite Nat.eqb_refl. reflexivity. Qed.

Lemma clearTimeout_incl live id t : In t (clearTimeout live id) -> In t live.
Proof.
  destruct id as [t0|]; simpl; [|tauto].
  intro H. apply filter_In in H. tauto.
Qed.

Lemma schedule_ok st :
  timers_ok st ->
  timers_ok (scheduleFilterUpdate st)
  /\ timers (scheduleFilterUpdate st) = [nextTimer st]
  /\ pendingFilterUpdate (scheduleFilterUpdate st) = Some (nextTimer st).
Proof.
  intros [Hnext Hpending].
  assert (Hlive : timers (scheduleFilterUpdate st) = [nextTimer st]).
  { unfold scheduleFilterUpdate, pendingIsSet. cbn [timers with_timers].
    destruct (pendingFilterUpdate st) as [t|].
    - destruct Hpending as [-> [Ht _]].
      destruct t as [|t]; [lia|]. rewrite clearTimeout_single. reflexivity.
    - rewrite Hpending. reflexivity. }
  split; [|split; [exact Hlive | reflexivity]].
  split.
  - cbn. lia.
  - cbn [pendingFilterUpdate scheduleFilterUpdate with_timers].
    split; [exact Hlive | cbn; lia].
Qed.

Lemma timers_ok_selected st sel : timers_ok st -> timers_ok (with_selectedFilters st sel).
Proof. intro H. exact H. Qed.

Lemma timers_ok_finder st matches i : timers_ok st -> timers_ok (with_finder st matches i).
Proof. intro H. exact H. Qed.

Lemma navigate_same_timers st d st' :
  navigateFilterMatch st d = Some st' ->
  pendingFilterUpdate st' = pendingFilterUpdate st
  /\ timers st' = timers st /\ nextTimer st' = nextTimer st.
Proof.
  unfold navigateFilterMatch, highlightCurrentMatch.
  repeat match goal with
         | |- context [if ?b then _ else _] => destruct b
         | |- context [match ?o with Some _ => _ | None => _ end] => destruct o
         end;
    intro H; inversion H; subst; auto.
Qed.

Lemma search_same_timers st fc q :
  pendingFilterUpdate (searchFilterOptions st fc q) = pendingFilterUpdate st
  /\ timers (searchFilterOptions st fc q) = timers st
  /\ nextTimer (searchFilterOptions st fc q) = nextTimer st.
Proof.
  unfold searchFilterOptions. destruct fc as [opts|]; [|auto].
  destruct (negb (truthy q)); [auto|].
  destruct (0 <? _)%nat; auto.
Qed.

Lemma selectCategory_same_timers st fc q :
  pendingFilterUpdate (selectCategory st fc q) = pendingFilterUpdate st
  /\ timers (selectCategory st fc q) = timers st
  /\ nextTimer (selectCategory st fc q) = nextTimer st.
Proof.
  unfold selectCategory. destruct (truthy q); [|auto].
  apply (search_same_timers (clearFilterSearch st)).
Qed.

Lemma timers_ok_same st st' :
  pendingFilterUpdate st' = pendingFilterUpdate st
  /\ timers st' = timers st /\ nextTimer st' = nextTimer st ->
  timers_ok st -> timers_ok st'.
Proof. unfold timers_ok. intros [-> [-> ->]] H. exact H. Qed.

Lemma timers_from_same b st st' :
  pendingFilterUpdate st' = pendingFilterUpdate st
  /\ timers st' = timers st /\ nextTimer st' = nextTimer st ->
  timers_from b st -> timers_from b st'.
Proof. unfold timers_from. intros [_ [-> ->]] H. exact H. Qed.

Lemma resetFilters_as_schedule st :
  timers_ok st ->
  exists st0, timers_ok st0 /\ nextTimer st0 = nextTimer st
              /\ resetFilters st = scheduleFilterUpdate st0.
Proof.
  intros Hok. unfold resetFilters.
  eexists. split; [|split; [|reflexivity]].
  - apply timers_ok_selected.
    destruct Hok as [Hnext Hpending]. unfold pendingIsSet.
    destruct (pendingFilterUpdate st) as [t|] eqn:Ht.
    + destruct Hpending as [Hlive Hrange]. destruct t as [|t]; [lia|].
      split; [exact Hnext|]. cbn [pendingFilterUpdate with_timers timers].
      rewrite Hlive. apply clearTimeout_single.
    + split; [exact Hnext|]. rewrite Ht. exact Hpending.
  - unfold pendingIsSet. destruct (pendingFilterUpdate st) as [[|t]|]; reflexivity.
Qed.

(** Every step keeps the pending slot and the live timers in agreement. *)
Lemma step_timers_ok st ev st' : step st ev st' -> timers_ok st -> timers_ok st'.
Proof.
  intros Hstep Hok. destruct Hstep.
  - apply (timers_ok_same st); [|exact Hok].
    apply (selectCategory_same_timers
             (mkState (datasets st) (buildFilterGroups (datasets st)) (selectedFilters st)
                      (pendingFilterUpdate st) (filterFinderMatches st)
                      (filterFinderCurrentIndex st) (timers st) (nextTimer st)
                      (filtersChanged st))).
  - unfold toggleFilterSelection.
    destruct (StrSet.has _ _); apply schedule_ok, timers_ok_selected, Hok.
  - apply schedule_ok, timers_ok_selected, Hok.
  - unfold selectAllInGroup. destruct (group_of _ _); [|exact Hok].
    apply schedule_ok, timers_ok_selected, Hok.
  - apply schedule_ok, timers_ok_selected, Hok.
  - unfold selectAllChildrenInHierarchy. destruct (hierarchyNodeAt _ _ _); [|exact Hok].
    apply schedule_ok, timers_ok_selected, Hok.
  - unfold clearAllChildrenInHierarchy. destruct (hierarchyNodeAt _ _ _); [|exact Hok].
    apply schedule_ok, timers_ok_selected, Hok.
  - destruct (resetFilters_as_schedule st Hok) as [st0 [Hok0 [_ ->]]].
    apply schedule_ok, Hok0.
  - apply (timers_ok_same st); [apply search_same_timers | exact Hok].
  - exact Hok.
  - apply (timers_ok_same st); [eapply navigate_same_timers; eassumption | exact Hok].
  - apply (timers_ok_same st); [apply selectCategory_same_timers | exact Hok].
  - destruct Hok as [Hnext Hpending]. split; [exact Hnext|].
    cbn [pendingFilterUpdate fireTimer timers].
    destruct (pendingFilterUpdate st) as [t0|].
    + destruct Hpending as [Hlive _]. rewrite Hlive in *.
      destruct H as [->|[]]. simpl. rewrite Nat.eqb_refl. reflexivity.
    + rewrite Hpending in H. destruct H.
Qed.

Lemma run_timers_ok st evs st' : run st evs st' -> timers_ok st -> timers_ok st'.
Proof.
  induction 1 as [|st ev st1 evs st2 Hstep _ IH]; intro Hok.
  - exact Hok.
  - apply IH. eapply step_timers_ok; eassumption.
Qed.

Lemma reachable_timers_ok st : reachable st -> timers_ok st.
Proof.
  intros [ds [evs Hrun]]. apply (run_timers_ok _ _ _ Hrun).
  split; [cbn; lia | reflexivity].
Qed.

Lemma schedule_from b st : timers_from b st -> timers_from b (scheduleFilterUpdate st).
Proof.
  intros [Hlive Hnext]. split.
  - cbn [timers scheduleFilterUpdate with_timers]. intros t Ht.
    apply in_app_or in Ht. destruct Ht as [Ht|[<-|[]]]; [|exact Hnext].
    apply Hlive. destruct (pendingIsSet st); [|exact Ht].
    eapply clearTimeout_incl. exact Ht.
  - cbn. lia.
Qed.

Lemma timers_from_selected b st sel :
  timers_from b st -> timers_from b (with_selectedFilters st sel).
Proof. intro H. exact H. Qed.

(** A step sets no timer below [b] when none is live or to come below [b]. *)
Lemma step_timers_from b st ev st' :
  step st ev st' -> timers_from b st -> timers_from b st'.
Proof.
  intros Hstep Hfrom. destruct Hstep.
  - apply (timers_from_same b st); [|exact Hfrom].
    apply (selectCategory_same_timers
             (mkState (datasets st) (buildFilterGroups (datasets st)) (selectedFilters st)
                      (pendingFilterUpdate st) (filterFinderMatches st)
                      (filterFinderCurrentIndex st) (timers st) (nextTimer st)
                      (filtersChanged st))).
  - unfold toggleFilterSelection.
    destruct (StrSet.has _ _); apply schedule_from, timers_from_selected, Hfrom.
  - apply schedule_from, timers_from_selected, Hfrom.
  - unfold selectAllInGroup. destruct (group_of _ _); [|exact Hfrom].
    apply schedule_from, timers_from_selected, Hfrom.
  - apply schedule_from, timers_from_selected, Hfrom.
  - unfold selectAllChildrenInHierarchy. destruct (hierarchyNodeAt _ _ _); [|exact Hfrom].
    apply schedule_from, timers_from_selected, Hfrom.
  - unfold clearAllChildrenInHierarchy. destruct (hierarchyNodeAt _ _ _); [|exact Hfrom].
    apply schedule_from, timers_from_selected, Hfrom.
  - unfold resetFilters. apply schedule_from, timers_from_selected.
    destruct (pendingIsSet st); [|exact Hfrom].
    destruct Hfrom as [Hlive Hnext]. split; [|exact Hnext].
    cbn [timers with_timers]. intros t Ht. apply Hlive.
    eapply clearTimeout_incl. exact Ht.
  - apply (timers_from_same b st); [apply search_same_timers | exact Hfrom].
  - exact Hfrom.
  - apply (timers_from_same b st); [eapply navigate_same_timers; eassumption | exact Hfrom].
  - apply (timers_from_same b st); [apply selectCategory_same_timers | exact Hfrom].
  - destruct Hfrom as [Hlive Hnext]. split; [|exact Hnext].
    cbn [timers fireTimer]. intros t' Ht'. apply Hlive.
    apply filter_In in Ht'. tauto.
Qed.

(** In a run, only timers with identifiers from [b] on fire. *)
Lemma run_fires_from b st evs st' :
  run st evs st' -> timers_from b st ->
  forall t, In (EvTimeout t) evs -> (b <= t)%nat.
Proof.
  induction 1 as [|st ev st1 evs st2 Hstep _ IH]; intros Hfrom t Hin.
  - destruct Hin.
  - destruct Hin as [->|Hin].
    + inversion Hstep; subst. apply Hfrom. assumption.
    + apply IH; [|exact Hin]. eapply step_timers_from; eassumption.
Qed.

End TimerFacts.

(** C9. In every state the page can reach, [resetFilters] leaves the
    selection set empty, the pending slot holding the timer it has just set,
    and that timer as the only live one; the timers that were live before have
    smaller identifiers, and in every continuation of the run only timers set
    by the reset or after it fire. *)
Theorem resetFilters_cancels_and_reschedules :
  forall st, reachable st ->
    selectedFilters (resetFilters st) = []
    /\ pendingFilterUpdate (resetFilters st) = Some (nextTimer st)
    /\ timers (resetFilters st) = [nextTimer st]
    /\ (forall t, In t (timers st) -> (t < nextTimer st)%nat)
    /\ (forall evs st', run (resetFilters st) evs st' ->
          forall t, In (EvTimeout t) evs -> (nextTimer st <= t)%nat).
Proof.
  intros st Hreach. pose proof (reachable_timers_ok st Hreach) as Hok.
  destruct (resetFilters_as_schedule st Hok) as [st0 [Hok0 [Hnext0 Heq]]].
  destruct (schedule_ok st0 Hok0) as [_ [Hlive Hpending]].
  rewrite Hnext0 in Hlive, Hpending.
  split; [reflexivity|].
  split; [rewrite Heq; exact Hpending|].
  split; [rewrite Heq; exact Hlive|].
  split.
  - destruct Hok as [_ Hslot]. intros t Ht.
    destruct (pendingFilterUpdate st) as [t0|].
    + destruct Hslot as [Hl Hr]. rewrite Hl in Ht. destruct Ht as [<-|[]]. lia.
    + rewrite Hslot in Ht. destruct Ht.
  - intros evs st' Hrun. apply (run_fires_from _ _ _ _ Hrun).
    split.
    + rewrite Heq, Hlive. intros t [<-|[]]. lia.
    + rewrite Heq. cbn. lia.
Qed.

Lemma toggledOnce_reachable : reachable toggledOnce.
Proof.
  exists [], [EvToggle "scene" "kitchen"].
  eapply run_cons; [apply step_toggle | apply run_nil].
Defined.

Lemma resetFilters_cancels_and_reschedules_witness :
  reachable toggledOnce
  /\ selectedFilters (resetFilters toggledOnce) = []
  /\ pendingFilterUpdate (resetFilters toggledOnce) = Some (nextTimer toggledOnce)
  /\ timers (resetFilters toggledOnce) = [nextTimer toggledOnce]
  /\ (forall t, In t (timers toggledOnce) -> (t < nextTimer toggledOnce)%nat)
  /\ (forall evs st', run (resetFilters toggledOnce) evs st' ->
        forall t, In (EvTimeout t) evs -> (nextTimer toggledOnce <= t)%nat).
Proof.
  split.
  - exact toggledOnce_reachable.
  - apply (resetFilters_cancels_and_reschedules toggledOnce). exact toggledOnce_reachable.
Defined.

(** ** Filter Finder navigation *)

Section FinderFacts.

Lemma indexInRange_spec st :
  indexInRange st = true <->
  (0 <= filterFinderCurrentIndex st < Z.of_nat (length (filterFinderMatches st)))%Z.
Proof. unfold indexInRange. rewrite andb_true_iff, Z.leb_le, Z.ltb_lt. tauto. Qed.

Lemma matchElementAt_in_range matches i :
  (0 <= i < Z.of_nat (length matches))%Z -> matchElementAt matches i <> None.
Proof.
  intros Hi. unfold matchElementAt.
  destruct (Z.ltb_spec i 0); [lia|].
  destruct (nth_error matches (Z.to_nat i)) eqn:Hnth; [discriminate|].
  apply nth_error_None in Hnth. lia.
Qed.

Lemma highlightCurrentMatch_same st : highlightCurrentMatch st = Some st.
Proof.
  unfold highlightCurrentMatch. destruct (indexInRange st) eqn:Hr; [|reflexivity].
  simpl. apply indexInRange_spec in Hr.
  destruct (matchElementAt _ _) eqn:He; [reflexivity|].
  exfalso. revert He. apply matchElementAt_in_range. exact Hr.
Qed.

Lemma navigateFilterMatch_result st d :
  navigateFilterMatch st d
  = Some (if (length (filterFinderMatches st) =? 0)%nat then st
          else with_finder st (filterFinderMatches st) (nextIndex st d)).
Proof.
  unfold navigateFilterMatch, nextIndex.
  destruct (filterFinderMatches st) as [|m ms] eqn:Hm; [reflexivity|].
  cbn [length Nat.eqb].
  destruct (Z.eqb_spec (Z.of_nat (S (length ms))) 0) as [H0|_]; [lia|].
  rewrite <- Hm at 1 2.
  assert (Hunmarked :
    (if indexInRange st
     then matchElementAt (filterFinderMatches st) (filterFinderCurrentIndex st)
     else Some 0%nat) <> None).
  { destruct (indexInRange st) eqn:Hr; [|discriminate].
    apply matchElementAt_in_range, indexInRange_spec, Hr. }
  destruct (if indexInRange st then _ else _); [|contradiction].
  rewrite highlightCurrentMatch_same, Hm. reflexivity.
Qed.

Lemma with_finder_same st :
  with_finder st (filterFinderMatches st) (filterFinderCurrentIndex st) = st.
Proof. destruct st. reflexivity. Qed.

(** From an index inside the list, [k] moves lead to the index [k] places
    further round the list. *)
Lemma navigateTimes_in_range d : forall k st,
  indexInRange st = true ->
  navigateTimes k d st
  = Some (with_finder st (filterFinderMatches st)
            ((filterFinderCurrentIndex st
              + (if String.eqb d "next" then 1 else -1) * Z.of_nat k)
             mod Z.of_nat (length (filterFinderMatches st)))%Z).
Proof.
  induction k as [|k IH]; intros st Hr.
  - cbn [navigateTimes]. apply indexInRange_spec in Hr.
    rewrite Z.mul_0_r, Z.add_0_r, Z.mod_small by lia.
    rewrite with_finder_same. reflexivity.
  - cbn [navigateTimes]. rewrite navigateFilterMatch_result.
    pose proof Hr as Hr'. apply indexInRange_spec in Hr'.
    destruct (Nat.eqb_spec (length (filterFinderMatches st)) 0) as [H0|_]; [lia|].
    set (n := Z.of_nat (length (filterFinderMatches st))) in *.
    assert (Hnext : nextIndex st d
                    = ((filterFinderCurrentIndex st
                        + (if String.eqb d "next" then 1 else -1)) mod n)%Z).
    { unfold nextIndex. fold n. destruct (String.eqb d "next").
      - rewrite Z.rem_mod_nonneg by lia. reflexivity.
      - rewrite Z.rem_mod_nonneg by lia.
        replace (filterFinderCurrentIndex st - 1 + n)%Z
          with (filterFinderCurrentIndex st + -1 + 1 * n)%Z by lia.
        apply Z.mod_add. lia. }
    assert (Hsum : forall c,
               (((filterFinderCurrentIndex st + c) mod n + c * Z.of_nat k) mod n
                = (filterFinderCurrentIndex st + c * Z.of_nat (S k)) mod n)%Z).
    { intro c. rewrite Zplus_mod_idemp_l. f_equal. lia. }
    rewrite IH.
    + cbn [filterFinderMatches filterFinderCurrentIndex with_finder]. fold n.
      rewrite Hnext, Hsum. unfold with_finder.
      cbn [datasets filterGroups selectedFilters pendingFilterUpdate timers nextTimer
           filtersChanged]. reflexivity.
    + apply indexInRange_spec.
      cbn [filterFinderMatches filterFinderCurrentIndex with_finder]. fold n.
      rewrite Hnext. apply Z.mod_pos_bound. lia.
Qed.

Lemma navigateTimes_cycle st d :
  indexInRange st = true ->
  navigateTimes (length (filterFinderMatches st)) d st = Some st.
Proof.
  intro Hr. rewrite navigateTimes_in_range by exact Hr.
  apply indexInRange_spec in Hr.
  rewrite Z.mod_add by lia. rewrite Z.mod_small by lia.
  rewrite with_finder_same. reflexivity.
Qed.

Lemma finder_ok_search st fc q : finder_ok (searchFilterOptions st fc q).
Proof.
  unfold searchFilterOptions. destruct fc as [opts|]; [|left; auto].
  destruct (negb (truthy q)); [left; auto|].
  destruct (findMatches (toLowerCase q) opts 0) as [|m ms] eqn:Hm.
  - left. cbn. auto.
  - right. cbn [length Nat.ltb Nat.leb]. reflexivity.
Qed.

Lemma finder_ok_selectCategory st fc q : finder_ok (selectCategory st fc q).
Proof.
  unfold selectCategory. destruct (truthy q); [apply finder_ok_search | left; auto].
Qed.

Lemma finder_ok_schedule st : finder_ok st -> finder_ok (scheduleFilterUpdate st).
Proof. intro H. exact H. Qed.

Lemma finder_ok_selected st sel : finder_ok st -> finder_ok (with_selectedFilters st sel).
Proof. intro H. exact H. Qed.

Lemma step_finder_ok st ev st' : step st ev st' -> finder_ok st -> finder_ok st'.
Proof.
  intros Hstep Hok. destruct Hstep.
  - apply finder_ok_selectCategory.
  - unfold toggleFilterSelection. destruct (StrSet.has _ _); exact Hok.
  - exact Hok.
  - unfold selectAllInGroup. destruct (group_of _ _); exact Hok.
  - exact Hok.
  - unfold selectAllChildrenInHierarchy. destruct (hierarchyNodeAt _ _ _); exact Hok.
  - unfold clearAllChildrenInHierarchy. destruct (hierarchyNodeAt _ _ _); exact Hok.
  - unfold resetFilters. destruct (pendingIsSet st); exact Hok.
  - apply finder_ok_search.
  - left. auto.
  - rewrite navigateFilterMatch_result in H. inversion H; subst; clear H.
    destruct (Nat.eqb_spec (length (filterFinderMatches st)) 0) as [H0|Hn]; [exact Hok|].
    right. apply indexInRange_spec.
    cbn [filterFinderMatches filterFinderCurrentIndex with_finder].
    destruct Hok as [[Hnil _]|Hr]; [rewrite Hnil in Hn; contradiction|].
    apply indexInRange_spec in Hr. unfold nextIndex.
    destruct (String.eqb d "next"); rewrite Z.rem_mod_nonneg by lia;
      apply Z.mod_pos_bound; lia.
  - apply finder_ok_selectCategory.
  - exact Hok.
Qed.

Lemma run_finder_ok st evs st' : run st evs st' -> finder_ok st -> finder_ok st'.
Proof.
  induction 1 as [|st ev st1 evs st2 Hstep _ IH]; intro Hok.
  - exact Hok.
  - apply IH. eapply step_finder_ok; eassumption.
Qed.

Lemma reachable_finder_ok st : reachable st -> finder_ok st.
Proof.
  intros [ds [evs Hrun]]. apply (run_finder_ok _ _ _ Hrun). left. auto.
Qed.

End FinderFacts.

(** C8. In every state the page can reach with a non-empty match list of
    length [n], [n] calls of [navigateFilterMatch] in one direction (['next'],
    or any other string, which moves backwards) lead back to the same state,
    so to the same current index; with an empty match list a call changes
    nothing; and no call throws. *)
Theorem navigateFilterMatch_cycles :
  forall st d,
    reachable st ->
    (filterFinderMatches st <> [] ->
       navigateTimes (length (filterFinderMatches st)) d st = Some st)
    /\ (filterFinderMatches st = [] -> navigateFilterMatch st d = Some st)
    /\ navigateFilterMatch st d <> None.
Proof.
  intros st d Hreach. split; [|split].
  - intro Hne. apply navigateTimes_cycle.
    destruct (reachable_finder_ok st Hreach) as [[Hnil _]|Hr]; [contradiction | exact Hr].
  - intro Hnil. rewrite navigateFilterMatch_result, Hnil. reflexivity.
  - rewrite navigateFilterMatch_result. discriminate.
Qed.

Lemma searchedOnce_reachable : reachable searchedOnce.
Proof.
  exists [], [EvSearch (Some [Some "hammer"; Some "saw"; Some "tool"]) "a"].
  eapply run_cons; [apply step_search | apply run_nil].
Defined.

Lemma navigateFilterMatch_cycles_witness :
  reachable searchedOnce
  /\ filterFinderMatches searchedOnce <> []
  /\ navigateTimes (length (filterFinderMatches searchedOnce)) "next" searchedOnce
     = Some searchedOnce.
Proof.
  split; [exact searchedOnce_reachable|].
  split; [discriminate|].
  apply (proj1 (navigateFilterMatch_cycles searchedOnce "next" searchedOnce_reachable)).
  discriminate.
Defined.

(** ** Filter identifiers and the separator *)

Section FilterIdFacts.

Lemma existsb_ext {A : Type} (f g : A -> bool) (l : list A) :
  (forall a, f a = g a) -> existsb f l = existsb g l.
Proof.
  intro H. induction l as [|a l IH]; simpl; [reflexivity|].
  rewrite H, IH. reflexivity.
Qed.

Lemma forallb_ext {A : Type} (f g : A -> bool) (l : list A) :
  (forall a, f a = g a) -> forallb f l = forallb g l.
Proof.
  intro H. induction l as [|a l IH]; simpl; [reflexivity|].
  rewrite H, IH. reflexivity.
Qed.

Lemma split_cons_sep sep s : split sep (String sep s) = EmptyString :: split sep s.
Proof. simpl. rewrite Ascii.eqb_refl. reflexivity. Qed.

Lemma split_head sep s : exists pieces, split sep s = before sep s :: pieces.
Proof.
  induction s as [|c s [pieces IH]]; simpl.
  - exists []. reflexivity.
  - destruct (Ascii.eqb c sep).
    + eexists. reflexivity.
    + rewrite IH. eexists. reflexivity.
Qed.

Lemma split_app_sep sep f v :
  hasChar sep f = false ->
  split sep (f ++ String sep v) = f :: split sep v.
Proof.
  induction f as [|c f IH]; simpl; intro Hf.
  - rewrite Ascii.eqb_refl. reflexivity.
  - apply orb_false_iff in Hf. destruct Hf as [Hc Hf].
    rewrite Hc, (IH Hf). reflexivity.
Qed.

Lemma parseFilterId_filterIdOf f v :
  hasChar ":" f = false ->
  parseFilterId (filterIdOf f v) = (f, Some (before ":" v)).
Proof.
  intro Hf. unfold parseFilterId, filterIdOf.
  change (":" ++ v)%string with (String ":" v).
  rewrite (split_app_sep ":" f v Hf).
  destruct (split_head ":" v) as [pieces ->]. reflexivity.
Qed.

Lemma before_no_sep sep s : hasChar sep s = false -> before sep s = s.
Proof.
  induction s as [|c s IH]; simpl; intro H; [reflexivity|].
  apply orb_false_iff in H. destruct H as [Hc Hs].
  rewrite Hc, (IH Hs). reflexivity.
Qed.

Lemma hasChar_before sep s : hasChar sep (before sep s) = false.
Proof.
  induction s as [|c s IH]; simpl; [reflexivity|].
  destruct (Ascii.eqb c sep) eqn:Hc; simpl; [reflexivity|].
  rewrite Hc, IH. reflexivity.
Qed.

Lemma before_sep_shorter sep s : hasChar sep s = true -> before sep s <> s.
Proof.
  intros Hs Heq. pose proof (hasChar_before sep s) as H.
  rewrite Heq, Hs in H. discriminate.
Qed.

Lemma before_before sep s : before sep (before sep s) = before sep s.
Proof. apply before_no_sep, hasChar_before. Qed.

Lemma facetKeys_no_colon f : In f facetKeys -> hasChar ":" f = false.
Proof.
  unfold facetKeys. simpl.
  intros [<-|[<-|[<-|[<-|[<-|[]]]]]]; reflexivity.
Qed.

Lemma collectFilters_app s id :
  collectFilters (s ++ [id])
  = filters_push (collectFilters s) (fst (parseFilterId id)) (snd (parseFilterId id)).
Proof.
  unfold collectFilters. rewrite fold_left_app. simpl.
  destruct (parseFilterId id). reflexivity.
Qed.

(** The test of one record against one key with one selected value is the
    test the affected-count calculator makes. *)
Lemma facetMatch_single ds key x :
  facetMatch ds key [Some x] = affects key x ds.
Proof.
  unfold facetMatch, affects, values_includes, arr_includes.
  assert (Hstr : forall l,
             existsb (fun v => existsb (sameValue (Some v)) [Some x]) l
             = existsb (String.eqb x) l).
  { intro l. apply existsb_ext. intro v. simpl.
    rewrite orb_false_r. apply String.eqb_sym. }
  assert (Hval : forall l,
             existsb (fun r => existsb (sameValue r) [Some x]) l
             = existsb (sameValue (Some x)) l).
  { intro l. apply existsb_ext. intros [r|]; simpl; [|reflexivity].
    rewrite orb_false_r. apply String.eqb_sym. }
  repeat match goal with
         | |- context [String.eqb key ?k] => destruct (String.eqb key k)
         end.
  - destruct (scenes ds); [apply Hstr | reflexivity].
  - apply Hval.
  - simpl. rewrite orb_false_r. reflexivity.
  - destruct (actions ds); [apply Hstr | reflexivity].
  - destruct (objects ds) as [objs|]; [|reflexivity].
    apply existsb_ext. intro obj. apply Hstr.
  - reflexivity.
Qed.

Lemma applyFilters_single ds f v :
  hasChar ":" f = false ->
  applyFilters ds [filterIdOf f v] "" = filter (affects f (before ":" v)) ds.
Proof.
  intro Hf. unfold applyFilters, collectFilters. simpl.
  rewrite (parseFilterId_filterIdOf f v Hf). simpl.
  apply filter_ext. intro d. unfold passesFilters. simpl.
  rewrite facetMatch_single, andb_true_r. reflexivity.
Qed.

Lemma calculateAffectedCount_filter ds f v :
  calculateAffectedCount ds f v = length (filter (affects f v) ds).
Proof.
  unfold calculateAffectedCount.
  assert (H : forall n,
             fold_left (fun count d => if affects f v d then S count else count) ds n
             = (n + length (filter (affects f v) ds))%nat).
  { induction ds as [|d ds IH]; intro n; simpl.
    - lia.
    - rewrite IH. destruct (affects f v d); simpl; lia. }
  apply (H 0%nat).
Qed.

(** For a facet value without a colon the static count is the size of the
    filter result under that single selection. *)
Lemma calculateAffectedCount_applyFilters ds f v :
  In f facetKeys -> hasChar ":" v = false ->
  calculateAffectedCount ds f v = length (applyFilters ds [filterIdOf f v] "").
Proof.
  intros Hf Hv.
  rewrite calculateAffectedCount_filter, applyFilters_single
    by (apply facetKeys_no_colon, Hf).
  rewrite (before_no_sep ":" v Hv). reflexivity.
Qed.

End FilterIdFacts.

(** C10. When a facet value [v] contains a colon and [toggleFilterSelection]
    adds its entry, the identifier stored is [f:v], and [applyFilters] reads
    it back as the key [f] with the part of [v] before its first colon, which
    differs from [v]: the filters collected are those of the earlier selection
    with that prefix pushed for [f], the result is the one the entry
    [f:prefix] would give, and with no other selection and no query it is the
    list of records that match the prefix. *)
Theorem applyFilters_truncates_value_at_colon :
  forall (st : State) (f v : string),
    In f facetKeys ->
    hasChar ":" v = true ->
    StrSet.has (selectedFilters st) (filterIdOf f v) = false ->
    selectedFilters (toggleFilterSelection st f v) = selectedFilters st ++ [filterIdOf f v]
    /\ parseFilterId (filterIdOf f v) = (f, Some (before ":" v))
    /\ before ":" v <> v
    /\ collectFilters (selectedFilters (toggleFilterSelection st f v))
       = filters_push (collectFilters (selectedFilters st)) f (Some (before ":" v))
    /\ (forall q,
          applyFilters (datasets (toggleFilterSelection st f v))
                       (selectedFilters (toggleFilterSelection st f v)) q
          = applyFilters (datasets st)
                         (selectedFilters st ++ [filterIdOf f (before ":" v)]) q)
    /\ applyFilters (datasets st) [filterIdOf f v] ""
       = filter (affects f (before ":" v)) (datasets st).
Proof.
  intros st f v Hf Hv Hnew.
  pose proof (facetKeys_no_colon f Hf) as Hkey.
  assert (Hsel : selectedFilters (toggleFilterSelection st f v)
                 = selectedFilters st ++ [filterIdOf f v]).
  { rewrite selectedFilters_toggle, Hnew. unfold StrSet.add. rewrite Hnew. reflexivity. }
  assert (Hcollect : collectFilters (selectedFilters (toggleFilterSelection st f v))
                     = filters_push (collectFilters (selectedFilters st)) f
                                    (Some (before ":" v))).
  { rewrite Hsel, collectFilters_app, (parseFilterId_filterIdOf f v Hkey). reflexivity. }
  repeat split.
  - exact Hsel.
  - apply parseFilterId_filterIdOf, Hkey.
  - apply before_sep_shorter, Hv.
  - exact Hcollect.
  - intro q. unfold applyFilters. rewrite Hcollect, collectFilters_app.
    rewrite (parseFilterId_filterIdOf f (before ":" v) Hkey). cbn [fst snd].
    rewrite before_before.
    unfold toggleFilterSelection. destruct (StrSet.has _ _); reflexivity.
  - apply applyFilters_single, Hkey.
Qed.

Lemma applyFilters_truncates_value_at_colon_witness :
  In "scene" facetKeys
  /\ hasChar ":" "a:b" = true
  /\ StrSet.has (selectedFilters (newFilterManager [])) (filterIdOf "scene" "a:b") = false
  /\ parseFilterId (filterIdOf "scene" "a:b") = ("scene", Some (before ":" "a:b"))
  /\ before ":" "a:b" <> "a:b".
Proof.
  assert (Hf : In "scene" facetKeys) by (left; reflexivity).
  assert (Hv : hasChar ":" "a:b" = true) by reflexivity.
  assert (Hnew : StrSet.has (selectedFilters (newFilterManager []))
                            (filterIdOf "scene" "a:b") = false) by reflexivity.
  pose proof (applyFilters_truncates_value_at_colon
                (newFilterManager []) "scene" "a:b" Hf Hv Hnew) as [_ [Hparse [Hneq _]]].
  repeat split; assumption.
Defined.

(** ** The filter evaluator against its contract *)

(** C1. With the scene [lab:bench] selected, [applyFilters] returns the two
    records whose scenes hold [lab] and leaves out the one record whose scenes
    hold [lab:bench], which is the record the contract asks for. *)
Theorem applyFilters_colon_value :
  applyFilters colonCatalog (selectionSet [("scene", "lab:bench")]) ""
  = [labRecord; officeRecord]
  /\ filteredRecords colonCatalog [("scene", "lab:bench")] "" = [benchRecord].
Proof. split; reflexivity. Qed.

(** C2. For the scene [lab:bench] the affected count is one, while
    [applyFilters] under the selection that toggling that one value gives
    returns two records. *)
Theorem calculateAffectedCount_colon_value :
  selectedFilters (toggleFilterSelection (newFilterManager colonCatalog) "scene" "lab:bench")
  = ["scene:lab:bench"]
  /\ calculateAffectedCount colonCatalog "scene" "lab:bench" = 1%nat
  /\ length (applyFilters colonCatalog
               (selectedFilters
                  (toggleFilterSelection (newFilterManager colonCatalog) "scene" "lab:bench"))
               "") = 2%nat.
Proof. repeat split; reflexivity. Qed.

(** ** The hierarchy tree against its contract *)

(** C3. After [tool > hammer] and then [tool] have been inserted, the node
    [tool] is the end of an inserted path and its [isLeaf] is false; inserted
    in the other order the same two paths leave it true. *)
Theorem addToHierarchy_existing_node_not_marked :
  nodeAt (insertAll [["tool"; "hammer"]; ["tool"]]) ["tool"]
  = Some (mkNode [("hammer", mkNode [] true)] false)
  /\ nodeAt (insertAll [["tool"]; ["tool"; "hammer"]]) ["tool"]
     = Some (mkNode [("hammer", mkNode [] true)] true).
Proof. split; reflexivity. Qed.

(** C4. The same two records in the two possible orders give hierarchies in
    which the node [tool] has different [isLeaf] flags. *)
Theorem buildFilterGroups_order_changes_isLeaf :
  Permutation [hammerRecord; toolRecord] [toolRecord; hammerRecord]
  /\ option_map isLeaf
       (nodeAt (objectHierarchy (buildFilterGroups [hammerRecord; toolRecord])) ["tool"])
     = Some false
  /\ option_map isLeaf
       (nodeAt (objectHierarchy (buildFilterGroups [toolRecord; hammerRecord])) ["tool"])
     = Some true.
Proof. split; [apply perm_swap | split; reflexivity]. Qed.

(** C6. In the hierarchy that holds the path [box > box], the descent
    through the labels of ["box>box"] reaches a node, and
    [findHierarchyNode] returns [null] for that path. *)
Theorem findHierarchyNode_repeated_label :
  nodeAt (insertAll [["box"; "box"]]) (split ">" "box>box") = Some (mkNode [] true)
  /\ findHierarchyNode (insertAll [["box"; "box"]]) "box>box" = None.
Proof. split; reflexivity. Qed.

(** ** Leaf counting *)

Section HMapFacts.

Lemma get_modify m k f k' :
  HMap.get (HMap.modify m k f) k'
  = if String.eqb k k' then option_map f (HMap.get m k) else HMap.get m k'.
Proof.
  induction m as [|[k0 n0] m IH]; simpl.
  - destruct (String.eqb k k'); reflexivity.
  - destruct (String.eqb_spec k0 k) as [->|Hk0]; simpl.
    + destruct (String.eqb_spec k k') as [->|Hkk'].
      * reflexivity.
      * reflexivity.
    + rewrite IH. destruct (String.eqb_spec k0 k') as [->|Hk0'].
      * destruct (String.eqb_spec k k') as [->|_]; [contradiction | reflexivity].
      * reflexivity.
Qed.

Lemma get_app_last m k node k' :
  HMap.get (m ++ [(k, node)]) k'
  = match HMap.get m k' with
    | Some n => Some n
    | None => if String.eqb k k' then Some node else None
    end.
Proof.
  induction m as [|[k0 n0] m IH]; simpl.
  - reflexivity.
  - destruct (String.eqb k0 k'); [reflexivity | exact IH].
Qed.

Lemma keys_modify m k f : keys (HMap.modify m k f) = keys m.
Proof.
  unfold keys. induction m as [|[k0 n0] m IH]; simpl; [reflexivity|].
  destruct (String.eqb k0 k); simpl; [reflexivity | rewrite IH; reflexivity].
Qed.

Lemma get_None_keys m k : HMap.get m k = None <-> ~ In k (keys m).
Proof.
  unfold keys. induction m as [|[k0 n0] m IH]; simpl.
  - tauto.
  - destruct (String.eqb_spec k0 k) as [->|Hk].
    + split; [discriminate | intro H; exfalso; apply H; left; reflexivity].
    + rewrite IH. split.
      * intros H [Heq|Hin]; [contradiction | exact (H Hin)].
      * intros H Hin. apply H. right. exact Hin.
Qed.

Lemma get_Some_keys m k node : HMap.get m k = Some node -> In k (keys m).
Proof.
  intro H. destruct (in_dec string_dec k (keys m)) as [Hin|Hout]; [exact Hin|].
  apply get_None_keys in Hout. congruence.
Qed.


Lemma has_get m k : HMap.has m k = match HMap.get m k with Some _ => true | None => false end.
Proof. reflexivity. Qed.

(** What [addLevels] leaves under each label of the map it starts from: the
    first label of the path leads to the old children, or to none, with the
    rest of the path added; the other labels are untouched. *)
Lemma get_addLevels m level rest k :
  HMap.get (addLevels m (level :: rest)) k
  = if String.eqb level k
    then Some (match HMap.get m level with
               | Some node => mkNode (addLevels (children node) rest) (isLeaf node)
               | None => mkNode (addLevels [] rest)
                                (match rest with [] => true | _ :: _ => false end)
               end)
    else HMap.get m k.
Proof.
  cbn [addLevels]. rewrite get_modify, has_get.
  destruct (HMap.get m level) as [node|] eqn:Hlevel; cbn [negb].
  - rewrite Hlevel. reflexivity.
  - unfold HMap.set. rewrite has_get, Hlevel, !get_app_last, Hlevel, String.eqb_refl.
    cbn [option_map children isLeaf].
    destruct (String.eqb_spec level k) as [->|Hk]; [reflexivity|].
    destruct (HMap.get m k); reflexivity.
Qed.

Lemma keys_addLevels m level rest :
  keys (addLevels m (level :: rest))
  = if HMap.has m level then keys m else keys m ++ [level].
Proof.
  cbn [addLevels]. rewrite keys_modify.
  destruct (HMap.has m level) eqn:Hhas; cbn [negb]; [reflexivity|].
  unfold HMap.set. rewrite Hhas. unfold keys. rewrite map_app. reflexivity.
Qed.

Lemma Forall_modify (P : HierarchyNode -> Prop) m k f :
  Forall (fun entry => P (snd entry)) m ->
  (forall node, P node -> P (f node)) ->
  Forall (fun entry => P (snd entry)) (HMap.modify m k f).
Proof.
  intros Hm Hf. induction Hm as [|[k0 n0] m Hhead Htail IH]; simpl.
  - constructor.
  - simpl in Hhead. destruct (String.eqb k0 k); constructor; simpl; auto.
Qed.

Lemma addToHierarchy_addLevels m levels : addToHierarchy m levels = addLevels m levels.
Proof. destruct levels; reflexivity. Qed.

Lemma wf_addLevels levels : forall m, wf m -> wf (addLevels m levels).
Proof.
  induction levels as [|level rest IH]; intros m [Hkeys Hnodes]; [split; assumption|].
  split.
  - rewrite keys_addLevels. destruct (HMap.has m level) eqn:Hhas; [exact Hkeys|].
    apply NoDup_app; [exact Hkeys | repeat constructor; intros [] | ].
    intros k' Hk [<-|[]]. rewrite has_get in Hhas.
    destruct (HMap.get m level) eqn:Hget; [discriminate|].
    apply get_None_keys in Hget. contradiction.
  - cbn [addLevels]. apply Forall_modify.
    + destruct (HMap.has m level) eqn:Hhas; cbn [negb]; [exact Hnodes|].
      unfold HMap.set. rewrite Hhas. apply Forall_app. split; [exact Hnodes|].
      repeat constructor.
    + intros node Hnode. inversion Hnode as [ch leaf Hch Hall]; subst.
      cbn [children isLeaf]. destruct (IH ch (conj Hch Hall)) as [Hch' Hall'].
      constructor; assumption.
Qed.

Lemma wf_insert paths : forall m, wf m -> wf (fold_left addToHierarchy paths m).
Proof.
  induction paths as [|q paths IH]; intros m Hm; [exact Hm|].
  simpl. apply IH. rewrite addToHierarchy_addLevels. apply wf_addLevels, Hm.
Qed.

Lemma wf_insertAll paths : wf (insertAll paths).
Proof. apply wf_insert. split; constructor. Qed.

End HMapFacts.

Section NodeFacts.

Lemma hasNode_cons m k rest :
  hasNode m (k :: rest)
  = match HMap.get m k with
    | Some node => match rest with [] => true | _ :: _ => hasNode (children node) rest end
    | None => false
    end.
Proof.
  unfold hasNode. simpl. destruct (HMap.get m k); [|reflexivity].
  destruct rest; reflexivity.
Qed.

Lemma hasNode_empty p : hasNode [] p = false.
Proof. destruct p; reflexivity. Qed.

(** The nodes after a path has been added: the nodes there were, and one for
    each non-empty initial part of the path. *)
Lemma hasNode_addLevels q : forall m p,
  hasNode (addLevels m q) p = hasNode m p || (nonEmpty p && isPrefix p q).
Proof.
  induction q as [|level rest IH]; intros m p.
  - destruct p; simpl; rewrite ?orb_false_r; reflexivity.
  - destruct p as [|k p']; [reflexivity|].
    rewrite !hasNode_cons, get_addLevels. cbn [nonEmpty isPrefix andb].
    rewrite (String.eqb_sym k level).
    destruct (String.eqb_spec level k) as [->|Hk]; cbn [andb].
    + destruct (HMap.get m k) as [node|]; cbn [children].
      * destruct p' as [|x p'']; [reflexivity|]. rewrite IH. reflexivity.
      * destruct p' as [|x p'']; [reflexivity|]. rewrite IH, hasNode_empty. reflexivity.
    + rewrite orb_false_r. reflexivity.
Qed.

Lemma hasNode_insert paths : forall m p,
  hasNode (fold_left addToHierarchy paths m) p
  = hasNode m p || (nonEmpty p && existsb (isPrefix p) paths).
Proof.
  induction paths as [|q paths IH]; intros m p; simpl.
  - rewrite andb_false_r, orb_false_r. reflexivity.
  - rewrite IH, addToHierarchy_addLevels, hasNode_addLevels.
    rewrite <- orb_assoc, andb_orb_distrib_r. reflexivity.
Qed.

Lemma hasNode_insertAll paths p :
  hasNode (insertAll paths) p = nonEmpty p && existsb (isPrefix p) paths.
Proof. unfold insertAll. rewrite hasNode_insert, hasNode_empty. reflexivity. Qed.

Lemma nodeAt_snoc x : forall p m node,
  nodeAt m p = Some node -> nodeAt m (p ++ [x]) = HMap.get (children node) x.
Proof.
  induction p as [|k p IH]; intros m node; simpl; [discriminate|].
  destruct (HMap.get m k) as [n|]; [|discriminate].
  destruct p as [|k' p'].
  - intro H. inversion H. subst. simpl. destruct (HMap.get (children node) x); reflexivity.
  - intro H. cbn [app]. rewrite <- app_comm_cons in IH. apply IH. exact H.
Qed.

Lemma no_children_iff ch : ch = [] <-> forall x, HMap.get ch x = None.
Proof.
  split; [intros -> x; reflexivity|].
  destruct ch as [|[k n] ch]; [reflexivity|].
  intro H. specialize (H k). simpl in H. rewrite String.eqb_refl in H. discriminate.
Qed.

(** A node has no children when no path one label longer leads to a node. *)
Lemma childless_iff m p node :
  nodeAt m p = Some node ->
  (children node = [] <-> forall x, hasNode m (p ++ [x]) = false).
Proof.
  intro Hp. rewrite no_children_iff. unfold hasNode.
  split; intros H x; specialize (H x).
  - rewrite (nodeAt_snoc x p m node Hp), H. reflexivity.
  - rewrite (nodeAt_snoc x p m node Hp) in H.
    destruct (HMap.get (children node) x); [discriminate | reflexivity].
Qed.

Lemma fold_count (f : string * HierarchyNode -> nat) l : forall n,
  fold_left (fun count entry => (count + f entry)%nat) l n
  = (n + list_sum (map f l))%nat.
Proof.
  induction l as [|e l IH]; intro n; simpl; [lia|]. rewrite IH. lia.
Qed.

Lemma length_flat_map {A B : Type} (f : A -> list B) l :
  length (flat_map f l) = list_sum (map (fun a => length (f a)) l).
Proof.
  induction l as [|a l IH]; simpl; [reflexivity|].
  rewrite length_app, IH. reflexivity.
Qed.

(** The count of a node is the number of its paths to childless nodes. *)
Lemma countNode_leafPathsNode node :
  forall label, countNode node = length (leafPathsNode label node).
Proof.
  induction node as [ch leaf IH] using HierarchyNode_nested_ind. intro label.
  destruct ch as [|e ch]; [reflexivity|].
  cbn [countNode leafPathsNode]. change (0 <? length (e :: ch))%nat with true. cbn iota.
  rewrite fold_count, length_map, length_flat_map. cbn [Nat.add]. f_equal.
  induction IH as [|e' l He' _ IHl]; simpl; [reflexivity|].
  rewrite (He' (fst e')), IHl. reflexivity.
Qed.

Lemma countHierarchyItems_leafPaths m : countHierarchyItems m = length (leafPaths m).
Proof.
  unfold countHierarchyItems, leafPaths. rewrite fold_count, length_flat_map. simpl.
  f_equal. apply map_ext. intros [k node]. apply countNode_leafPathsNode.
Qed.

Lemma leafPaths_cons k ch leaf rest :
  leafPaths ((k, mkNode ch leaf) :: rest)
  = (match ch with [] => [[k]] | _ :: _ => map (cons k) (leafPaths ch) end)
    ++ leafPaths rest.
Proof. unfold leafPaths. simpl. destruct ch; reflexivity. Qed.

Lemma leafPaths_head m : forall p,
  In p (leafPaths m) -> exists k p', p = k :: p' /\ In k (keys m).
Proof.
  induction m as [|k ch leaf rest _ IHrest] using Hierarchy_ind2; intros p Hp.
  - destruct Hp.
  - rewrite leafPaths_cons in Hp. apply in_app_or in Hp. destruct Hp as [Hp|Hp].
    + destruct ch as [|e ch].
      * destruct Hp as [<-|[]]. exists k, []. split; [reflexivity | left; reflexivity].
      * apply in_map_iff in Hp. destruct Hp as [p' [<- _]].
        exists k, p'. split; [reflexivity | left; reflexivity].
    + destruct (IHrest p Hp) as [k' [p' [-> Hin]]].
      exists k', p'. split; [reflexivity | right; exact Hin].
Qed.

Lemma wf_cons k ch leaf rest :
  wf ((k, mkNode ch leaf) :: rest) -> ~ In k (keys rest) /\ wf ch /\ wf rest.
Proof.
  intros [Hkeys Hall]. inversion Hkeys; subst. inversion Hall; subst.
  match goal with H : wfNode _ |- _ => inversion H; subst end.
  repeat split; assumption.
Qed.

(** In a hierarchy whose maps hold no label twice, the paths to childless
    nodes are listed once each. *)
Lemma leafPaths_NoDup m : wf m -> NoDup (leafPaths m).
Proof.
  induction m as [|k ch leaf rest IHch IHrest] using Hierarchy_ind2; intro Hwf.
  - constructor.
  - apply wf_cons in Hwf. destruct Hwf as [Hk [Hch Hrest]].
    rewrite leafPaths_cons. apply NoDup_app.
    + destruct ch as [|e ch]; [repeat constructor; intros []|].
      apply Finite.Injective_map_NoDup; [|apply IHch, Hch].
      intros a b Hab. inversion Hab. reflexivity.
    + apply IHrest, Hrest.
    + intros p Hp Hp'. destruct (leafPaths_head rest p Hp') as [k' [p' [-> Hin]]].
      assert (k' = k); [|subst; contradiction].
      destruct ch as [|e ch].
      * destruct Hp as [Heq|[]]. inversion Heq. reflexivity.
      * apply in_map_iff in Hp. destruct Hp as [p'' [Heq _]]. inversion Heq. reflexivity.
Qed.

(** The listed paths are the paths that lead to a node without children. *)
Lemma leafPaths_spec m : wf m -> forall p,
  In p (leafPaths m) <-> exists node, nodeAt m p = Some node /\ children node = [].
Proof.
  induction m as [|k ch leaf rest IHch IHrest] using Hierarchy_ind2; intros Hwf p.
  - split; [intros [] | intros [node [H _]]; destruct p; discriminate].
  - apply wf_cons in Hwf. destruct Hwf as [Hk [Hch Hrest]].
    rewrite leafPaths_cons, in_app_iff. split.
    + intros [Hp|Hp].
      * destruct ch as [|e ch].
        -- destruct Hp as [<-|[]]. exists (mkNode [] leaf). simpl.
           rewrite String.eqb_refl. split; reflexivity.
        -- apply in_map_iff in Hp. destruct Hp as [p' [<- Hp']].
           apply (IHch Hch) in Hp'. destruct Hp' as [node [Hnode Hnil]].
           exists node. split; [|exact Hnil]. simpl. rewrite String.eqb_refl.
           destruct p' as [|x p'']; [discriminate | exact Hnode].
      * pose proof Hp as Hp'. apply (IHrest Hrest) in Hp'.
        destruct Hp' as [node [Hnode Hnil]]. exists node. split; [|exact Hnil].
        destruct (leafPaths_head rest p Hp) as [k' [p' [-> Hin]]].
        simpl. destruct (String.eqb_spec k k') as [->|_]; [contradiction|].
        exact Hnode.
    + intros [node [Hnode Hnil]]. destruct p as [|k' p']; [discriminate|].
      simpl in Hnode. destruct (String.eqb_spec k k') as [->|Hkk'].
      * left. destruct p' as [|x p''].
        -- inversion Hnode; subst. simpl in Hnil. subst. left. reflexivity.
        -- cbn [children] in Hnode. destruct ch as [|e ch]; [discriminate|].
           apply in_map. apply (IHch Hch). exists node. split; assumption.
      * right. apply (IHrest Hrest). exists node. split; [|exact Hnil]. exact Hnode.
Qed.

End NodeFacts.

Section LeafCount.

Lemma isPrefix_refl p : isPrefix p p = true.
Proof. induction p as [|a p IH]; simpl; [reflexivity|]. rewrite String.eqb_refl. exact IH. Qed.

Lemma isPrefix_snoc x : forall p q,
  isPrefix (p ++ [x]) q = true -> properPrefix p q = true.
Proof.
  unfold properPrefix. induction p as [|a p IH]; intros q H.
  - destruct q; [discriminate | reflexivity].
  - destruct q as [|b q]; [discriminate|]. simpl in H. apply andb_true_iff in H.
    destruct H as [Hab Hpq]. apply IH in Hpq. apply andb_true_iff in Hpq.
    destruct Hpq as [Hp Hlen]. simpl. rewrite Hab, Hp. exact Hlen.
Qed.

Lemma properPrefix_snoc : forall p q,
  properPrefix p q = true -> exists x, isPrefix (p ++ [x]) q = true.
Proof.
  unfold properPrefix. induction p as [|a p IH]; intros q H.
  - destruct q as [|b q]; [discriminate|]. exists b. simpl.
    rewrite String.eqb_refl. reflexivity.
  - destruct q as [|b q]; [discriminate|]. simpl in H.
    apply andb_true_iff in H. destruct H as [H Hlen].
    apply andb_true_iff in H. destruct H as [Hab Hpq].
    destruct (IH q) as [x Hx]; [rewrite Hpq; exact Hlen|].
    exists x. simpl. rewrite Hab. exact Hx.
Qed.

Lemma isPrefix_not_proper : forall p q,
  isPrefix p q = true -> properPrefix p q = false -> p = q.
Proof.
  unfold properPrefix. induction p as [|a p IH]; intros q Hpq H.
  - destruct q; [reflexivity | discriminate].
  - destruct q as [|b q]; [discriminate|]. simpl in Hpq.
    apply andb_true_iff in Hpq. destruct Hpq as [Hab Hpq].
    apply String.eqb_eq in Hab. subst. f_equal. apply IH; [exact Hpq|].
    simpl in H. rewrite String.eqb_refl, Hpq in H. rewrite Hpq. exact H.
Qed.

Lemma maximalPaths_In paths p :
  In p (maximalPaths paths)
  <-> In p paths /\ forall q, In q paths -> properPrefix p q = false.
Proof.
  unfold maximalPaths. rewrite filter_In, negb_true_iff. split.
  - intros [Hp Hmax]. split; [exact Hp|]. intros q Hq.
    destruct (properPrefix p q) eqn:Hpq; [|reflexivity].
    assert (existsb (properPrefix p) paths = true) by (apply existsb_exists; eauto).
    congruence.
  - intros [Hp Hmax]. split; [exact Hp|].
    destruct (existsb (properPrefix p) paths) eqn:Hex; [|reflexivity].
    apply existsb_exists in Hex. destruct Hex as [q [Hq Hpq]].
    rewrite (Hmax q Hq) in Hpq. discriminate.
Qed.

(** The paths to the childless nodes of the hierarchy built from non-empty
    paths are the inserted paths that no inserted path extends. *)
Lemma leafPaths_insertAll paths :
  (forall p, In p paths -> p <> []) ->
  forall p, In p (leafPaths (insertAll paths)) <-> In p (maximalPaths paths).
Proof.
  intros Hne p. rewrite (leafPaths_spec _ (wf_insertAll paths)), maximalPaths_In.
  split.
  - intros [node [Hnode Hnil]].
    assert (Hhas : hasNode (insertAll paths) p = true) by (unfold hasNode; rewrite Hnode; reflexivity).
    rewrite hasNode_insertAll in Hhas. apply andb_true_iff in Hhas.
    destruct Hhas as [_ Hex]. apply existsb_exists in Hex. destruct Hex as [q [Hq Hpq]].
    assert (Hmax : forall q', In q' paths -> properPrefix p q' = false).
    { intros q' Hq'. destruct (properPrefix p q') eqn:Hproper; [|reflexivity].
      apply properPrefix_snoc in Hproper. destruct Hproper as [x Hx].
      pose proof (proj1 (childless_iff _ _ _ Hnode) Hnil x) as Hnone.
      rewrite hasNode_insertAll in Hnone.
      assert (Hex' : existsb (isPrefix (p ++ [x])) paths = true)
        by (apply existsb_exists; eauto).
      assert (Hsnoc : nonEmpty (p ++ [x]) = true) by (destruct p; reflexivity).
      rewrite Hex', Hsnoc in Hnone. discriminate. }
    split; [|exact Hmax].
    rewrite (isPrefix_not_proper p q Hpq (Hmax q Hq)). exact Hq.
  - intros [Hp Hmax].
    assert (Hhas : hasNode (insertAll paths) p = true).
    { rewrite hasNode_insertAll. apply andb_true_iff. split.
      - specialize (Hne p Hp). destruct p; [contradiction | reflexivity].
      - apply existsb_exists. exists p. split; [exact Hp | apply isPrefix_refl]. }
    unfold hasNode in Hhas. destruct (nodeAt (insertAll paths) p) as [node|] eqn:Hnode;
      [|discriminate].
    exists node. split; [reflexivity|].
    apply (childless_iff _ _ _ Hnode). intro x. rewrite hasNode_insertAll.
    destruct (existsb (isPrefix (p ++ [x])) paths) eqn:Hex; [|apply andb_false_r].
    apply existsb_exists in Hex. destruct Hex as [q [Hq Hpq]].
    apply isPrefix_snoc in Hpq. rewrite (Hmax q Hq) in Hpq. discriminate.
Qed.

Lemma countHierarchyItems_insertAll paths :
  (forall p, In p paths -> p <> []) ->
  countHierarchyItems (insertAll paths) = distinctCount (maximalPaths paths).
Proof.
  intro Hne. rewrite countHierarchyItems_leafPaths. unfold distinctCount.
  apply Permutation_length, NoDup_Permutation.
  - apply leafPaths_NoDup, wf_insertAll.
  - apply NoDup_nodup.
  - intro p. rewrite nodup_In. apply leafPaths_insertAll, Hne.
Qed.

Lemma distinctCount_maximalPaths_members paths paths' :
  (forall p, In p paths' <-> In p paths) ->
  distinctCount (maximalPaths paths') = distinctCount (maximalPaths paths).
Proof.
  intro Hsame. unfold distinctCount.
  apply Permutation_length, NoDup_Permutation; try apply NoDup_nodup.
  intro p. rewrite !nodup_In, !maximalPaths_In, Hsame.
  split; intros [Hp Hmax]; (split; [exact Hp|]); intros q Hq; apply Hmax, Hsame, Hq.
Qed.

End LeafCount.

(** C5, as stated, fails: two different non-empty paths, one an initial part
    of the other, give a hierarchy whose count is one, not two. *)
Lemma countHierarchyItems_not_distinct_paths :
  forallb nonEmpty branchPaths = true
  /\ countHierarchyItems (insertAll branchPaths) = 1%nat
  /\ distinctCount branchPaths = 2%nat
  /\ countHierarchyItems (insertAll branchPaths) <> distinctCount branchPaths.
Proof. repeat split; try reflexivity. vm_compute. discriminate. Qed.

(** C5, amended. For every sequence of non-empty paths inserted into an empty
    hierarchy, [countHierarchyItems] of the result is the number of different
    inserted paths that are not a proper initial part of another inserted
    path; so it is the same for every sequence with the same paths, whatever
    their order and however often each occurs. *)
Theorem countHierarchyItems_maximal_paths :
  forall paths : list (list string),
    (forall p, In p paths -> p <> []) ->
    countHierarchyItems (insertAll paths) = distinctCount (maximalPaths paths)
    /\ (forall paths', (forall p, In p paths' <-> In p paths) ->
          countHierarchyItems (insertAll paths') = countHierarchyItems (insertAll paths)).
Proof.
  intros paths Hne. split.
  - apply countHierarchyItems_insertAll, Hne.
  - intros paths' Hsame.
    rewrite !countHierarchyItems_insertAll.
    + apply distinctCount_maximalPaths_members, Hsame.
    + exact Hne.
    + intros p Hp. apply Hne, Hsame, Hp.
Qed.

Lemma countHierarchyItems_maximal_paths_witness :
  (forall p, In p branchPaths -> p <> [])
  /\ countHierarchyItems (insertAll branchPaths) = distinctCount (maximalPaths branchPaths).
Proof.
  assert (Hne : forall p, In p branchPaths -> p <> []).
  { intros p [<-|[<-|[]]]; discriminate. }
  split; [exact Hne|].
  exact (proj1 (countHierarchyItems_maximal_paths branchPaths Hne)).
Defined.

(** ** Where the hierarchy operations agree with their contract *)

Section HierarchyContract.

Lemma pathEqb_eq p : forall q, pathEqb p q = true <-> p = q.
Proof.
  induction p as [|a p IH]; intros [|b q]; simpl; try (split; [discriminate|discriminate]).
  - tauto.
  - rewrite andb_true_iff, String.eqb_eq, IH. split.
    + intros [-> ->]. reflexivity.
    + intro H. inversion H. auto.
Qed.

Lemma nodeAt_hasNode m p node : nodeAt m p = Some node -> hasNode m p = true.
Proof. unfold hasNode. intros ->. reflexivity. Qed.

Lemma nodeAt_None_hasNode m p : nodeAt m p = None -> hasNode m p = false.
Proof. unfold hasNode. intros ->. reflexivity. Qed.

(** Adding a path leaves the flag of every node there was, and gives a new
    node the flag of being the end of the path. *)
Lemma isLeaf_addLevels q : forall m p node,
  nodeAt (addLevels m q) p = Some node ->
  isLeaf node = match nodeAt m p with
                | Some old => isLeaf old
                | None => pathEqb p q
                end.
Proof.
  induction q as [|level rest IH]; intros m p node Hnode.
  - cbn [addLevels] in Hnode. rewrite Hnode. reflexivity.
  - destruct p as [|k p']; [discriminate|].
    cbn [nodeAt] in Hnode |- *. rewrite get_addLevels in Hnode.
    cbn [pathEqb]. rewrite (String.eqb_sym k level).
    destruct (String.eqb_spec level k) as [->|Hk]; cbn [andb].
    + destruct (HMap.get m k) as [node0|].
      * destruct p' as [|x p'']; [inversion Hnode; reflexivity|].
        cbn [children] in Hnode. apply IH, Hnode.
      * destruct p' as [|x p''].
        -- inversion Hnode. destruct rest; reflexivity.
        -- cbn [children] in Hnode. apply IH in Hnode. exact Hnode.
    + destruct (HMap.get m k) as [node0|]; [|discriminate].
      destruct p' as [|x p'']; [inversion Hnode; reflexivity|].
      rewrite Hnode. reflexivity.
Qed.

Lemma isLeaf_insert paths : forall m p node,
  nodeAt (fold_left addToHierarchy paths m) p = Some node ->
  isLeaf node = match nodeAt m p with
                | Some old => isLeaf old
                | None => markedBy paths p
                end.
Proof.
  unfold markedBy.
  induction paths as [|q paths IH]; intros m p node Hnode.
  - cbn [fold_left] in Hnode. rewrite Hnode. reflexivity.
  - cbn [fold_left] in Hnode. rewrite addToHierarchy_addLevels in Hnode.
    rewrite (IH _ _ _ Hnode).
    assert (Hp : nonEmpty p = true) by (destruct p; [discriminate | reflexivity]).
    pose proof (hasNode_addLevels q m p) as Hhas. rewrite Hp in Hhas. cbn [andb] in Hhas.
    destruct (nodeAt (addLevels m q) p) as [mid|] eqn:Hmid.
    + rewrite (isLeaf_addLevels q m p mid Hmid).
      destruct (nodeAt m p) as [old|] eqn:Hold; [reflexivity|].
      rewrite (nodeAt_hasNode _ _ _ Hmid), (nodeAt_None_hasNode _ _ Hold) in Hhas.
      cbn [orb] in Hhas. cbn [find]. rewrite <- Hhas. reflexivity.
    + rewrite (nodeAt_None_hasNode _ _ Hmid) in Hhas.
      symmetry in Hhas. apply orb_false_iff in Hhas. destruct Hhas as [Hold Hpq].
      unfold hasNode in Hold. destruct (nodeAt m p); [discriminate|].
      cbn [find]. rewrite Hpq. reflexivity.
Qed.

(** The flag of every node of a hierarchy built from an empty one. *)
Lemma isLeaf_insertAll paths p node :
  nodeAt (insertAll paths) p = Some node -> isLeaf node = markedBy paths p.
Proof.
  intro Hnode. rewrite (isLeaf_insert paths [] p node Hnode).
  destruct p; reflexivity.
Qed.

(** A marked node is the end of an inserted path. *)
Lemma isLeaf_inserted paths p node :
  nodeAt (insertAll paths) p = Some node -> isLeaf node = true -> In p paths.
Proof.
  intros Hnode Hleaf. rewrite (isLeaf_insertAll paths p node Hnode) in Hleaf.
  unfold markedBy in Hleaf. destruct (find (isPrefix p) paths) as [q|] eqn:Hfind;
    [|discriminate].
  apply pathEqb_eq in Hleaf. subst q. apply find_some in Hfind. tauto.
Qed.

Lemma indexOf_bounds parts x : (-1 <= indexOf parts x < Z.of_nat (length parts))%Z.
Proof.
  induction parts as [|y parts IH]; simpl; [lia|].
  destruct (String.eqb y x); [lia|].
  destruct (Z.ltb_spec (indexOf parts x) 0); lia.
Qed.

Lemma indexOf_In parts x : In x parts -> (0 <= indexOf parts x)%Z.
Proof.
  induction parts as [|y parts IH]; simpl; [intros []|].
  destruct (String.eqb_spec y x) as [->|Hyx]; [lia|].
  intros [Heq|Hin]; [contradiction|]. specialize (IH Hin).
  destruct (Z.ltb_spec (indexOf parts x) 0); lia.
Qed.

Lemma indexOf_not_In parts x : ~ In x parts -> indexOf parts x = (-1)%Z.
Proof.
  induction parts as [|y parts IH]; simpl; [reflexivity|].
  intro H. destruct (String.eqb_spec y x) as [->|Hyx]; [exfalso; apply H; left; reflexivity|].
  rewrite IH by (intro; apply H; right; assumption). reflexivity.
Qed.

Lemma indexOf_app_In front back x :
  In x front -> indexOf (front ++ back) x = indexOf front x.
Proof.
  induction front as [|y front IH]; simpl; [intros []|].
  destruct (String.eqb_spec y x) as [->|Hyx]; [reflexivity|].
  intros [Heq|Hin]; [contradiction|]. rewrite (IH Hin). reflexivity.
Qed.

Lemma indexOf_app_not_In front back x :
  ~ In x front ->
  indexOf (front ++ back) x
  = if (indexOf back x <? 0)%Z then (-1)%Z else (Z.of_nat (length front) + indexOf back x)%Z.
Proof.
  induction front as [|y front IH]; intro H.
  - simpl. destruct (Z.ltb_spec (indexOf back x) 0); [|reflexivity].
    pose proof (indexOf_bounds back x). lia.
  - cbn [app indexOf length].
    destruct (String.eqb_spec y x) as [->|Hyx]; [exfalso; apply H; left; reflexivity|].
    rewrite IH by (intro; apply H; right; assumption).
    pose proof (indexOf_bounds back x).
    destruct (Z.ltb_spec (indexOf back x) 0); [reflexivity|].
    destruct (Z.ltb_spec (Z.of_nat (length front) + indexOf back x) 0); lia.
Qed.

(** The test [parts.indexOf(part) === parts.length - 1] holds for the last
    part alone, and only when that part does not occur earlier. *)
Lemma last_test front lastPart x :
  (indexOf (front ++ [lastPart]) x =? Z.of_nat (length (front ++ [lastPart])) - 1)%Z
  = String.eqb lastPart x && negb (arr_includes front x).
Proof.
  rewrite length_app. cbn [length].
  destruct (arr_includes front x) eqn:Hin.
  - apply StrSetFacts.arr_includes_In in Hin. rewrite (indexOf_app_In _ _ _ Hin).
    pose proof (indexOf_bounds front x). rewrite andb_false_r.
    apply Z.eqb_neq. lia.
  - assert (Hout : ~ In x front).
    { intro H. apply StrSetFacts.arr_includes_In in H. congruence. }
    rewrite (indexOf_app_not_In _ _ _ Hout). cbn [negb]. rewrite andb_true_r.
    assert (Hone : indexOf [lastPart] x = if String.eqb lastPart x then 0%Z else (-1)%Z).
    { simpl. destruct (String.eqb lastPart x); reflexivity. }
    rewrite Hone. destruct (String.eqb lastPart x).
    + destruct (Z.ltb_spec 0 0); [lia|]. apply Z.eqb_eq. lia.
    + destruct (Z.ltb_spec (-1) 0); [|lia]. apply Z.eqb_neq. lia.
Qed.

Lemma findLoop_never parts : forall todo current,
  (forall x, In x todo ->
     (indexOf parts x =? Z.of_nat (length parts) - 1)%Z = false) ->
  findLoop parts current todo = None.
Proof.
  induction todo as [|x todo IH]; intros current H; simpl; [reflexivity|].
  destruct (HMap.get current x); [|reflexivity].
  rewrite (H x) by (left; reflexivity). apply IH. intros y Hy. apply H. right. exact Hy.
Qed.

Lemma findLoop_descends parts lastPart : forall todo current,
  (forall x, In x todo ->
     (indexOf parts x =? Z.of_nat (length parts) - 1)%Z = false) ->
  (indexOf parts lastPart =? Z.of_nat (length parts) - 1)%Z = true ->
  findLoop parts current (todo ++ [lastPart]) = nodeAt current (todo ++ [lastPart]).
Proof.
  induction todo as [|x todo IH]; intros current Hfront Hlast.
  - simpl. rewrite Hlast. reflexivity.
  - cbn [app findLoop nodeAt]. destruct (HMap.get current x) as [node|]; [|reflexivity].
    rewrite (Hfront x) by (left; reflexivity).
    rewrite IH by (try exact Hlast; intros y Hy; apply Hfront; right; exact Hy).
    destruct (todo ++ [lastPart]) eqn:Happ; [|reflexivity].
    destruct todo; discriminate.
Qed.

(** What [findHierarchyNode] returns: the node the descent reaches when the
    last label of the path does not occur earlier in the path, and [null]
    when it does. *)
Lemma findHierarchyNode_result m path front lastPart :
  split ">" path = front ++ [lastPart] ->
  findHierarchyNode m path
  = if arr_includes front lastPart then None else nodeAt m (split ">" path).
Proof.
  intro Hparts. unfold findHierarchyNode. rewrite Hparts.
  destruct (arr_includes front lastPart) eqn:Hin.
  - apply findLoop_never. intros x Hx. rewrite last_test.
    apply in_app_or in Hx. destruct Hx as [Hx|[<-|[]]].
    + apply StrSetFacts.arr_includes_In in Hx. rewrite Hx, andb_false_r. reflexivity.
    + rewrite Hin, andb_false_r. reflexivity.
  - apply findLoop_descends.
    + intros x Hx. rewrite last_test.
      apply StrSetFacts.arr_includes_In in Hx. rewrite Hx, andb_false_r. reflexivity.
    + rewrite last_test, Hin, String.eqb_refl. reflexivity.
Qed.

Lemma split_last sep s : exists front lastPart, split sep s = front ++ [lastPart].
Proof.
  assert (Hne : split sep s <> []).
  { destruct (split_head sep s) as [pieces ->]. discriminate. }
  exists (removelast (split sep s)), (last (split sep s) EmptyString).
  apply app_removelast_last, Hne.
Qed.

End HierarchyContract.

(** ** What of the facet index does not depend on the order of the records *)

Section FacetIndexFacts.

Lemma existsb_same_members {A : Type} (f : A -> bool) l l' :
  (forall a, In a l <-> In a l') -> existsb f l = existsb f l'.
Proof.
  intro H. destruct (existsb f l) eqn:Hl; symmetry.
  - apply existsb_exists in Hl. destruct Hl as [a [Ha Hf]].
    apply existsb_exists. exists a. split; [apply H, Ha | exact Hf].
  - destruct (existsb f l') eqn:Hl'; [|reflexivity].
    apply existsb_exists in Hl'. destruct Hl' as [a [Ha Hf]].
    assert (existsb f l = true) by (apply existsb_exists; exists a; split; [apply H, Ha | exact Hf]).
    congruence.
Qed.

Lemma fold_left_map_arg {A B C : Type} (f : A -> C -> A) (g : B -> C) l : forall a,
  fold_left (fun acc b => f acc (g b)) l a = fold_left f (map g l) a.
Proof. induction l as [|b l IH]; intro a; simpl; [reflexivity | apply IH]. Qed.

Lemma collectValues_fields ds : forall groups,
  scene_values (fold_left collectDataset ds groups)
  = fold_left StrSet.add (flat_map sceneList ds) (scene_values groups)
  /\ robot_values (fold_left collectDataset ds groups)
     = fold_left StrSet.add (flat_map robotList ds) (robot_values groups)
  /\ end_values (fold_left collectDataset ds groups)
     = fold_left StrSet.add (flat_map endList ds) (end_values groups)
  /\ action_values (fold_left collectDataset ds groups)
     = fold_left StrSet.add (flat_map actionList ds) (action_values groups)
  /\ object_values (fold_left collectDataset ds groups)
     = fold_left addToHierarchy (flat_map objectPaths ds) (object_values groups).
Proof.
  induction ds as [|d ds IH]; intro groups; [repeat split|].
  cbn [fold_left flat_map]. rewrite !fold_left_app.
  destruct (IH (collectDataset groups d)) as [Hs [Hr [He [Ha Ho]]]].
  rewrite Hs, Hr, He, Ha, Ho. unfold collectDataset.
  cbn [scene_values robot_values end_values action_values object_values].
  unfold sceneList, robotList, endList, actionList, objectPaths.
  repeat split.
  - destruct (scenes d); reflexivity.
  - destruct (robot d) as [[r|rs]|]; try reflexivity. destruct (truthy r); reflexivity.
  - destruct (endEffector d) as [e|]; try reflexivity. destruct (truthy e); reflexivity.
  - destruct (actions d); reflexivity.
  - destruct (objects d) as [objs|]; [|reflexivity].
    rewrite (fold_left_map_arg addToHierarchy hierarchy). reflexivity.
Qed.

Lemma has_collected (f : Dataset -> list string) ds ds' x :
  Permutation ds ds' ->
  StrSet.has (fold_left StrSet.add (flat_map f ds) []) x
  = StrSet.has (fold_left StrSet.add (flat_map f ds') []) x.
Proof.
  intro Hperm. rewrite !StrSetFacts.has_fold_add. f_equal.
  apply existsb_same_members. intro a.
  pose proof (Permutation_flat_map f Hperm) as Hflat.
  split; apply Permutation_in; [exact Hflat | symmetry; exact Hflat].
Qed.

(** The flat groups hold the same values, and the hierarchy has the same
    nodes, whatever the order of the records. *)
Lemma buildFilterGroups_permutation ds ds' :
  Permutation ds ds' ->
  (forall key x,
     StrSet.has (flatValues (buildFilterGroups ds) key) x
     = StrSet.has (flatValues (buildFilterGroups ds') key) x)
  /\ (forall p,
        hasNode (objectHierarchy (buildFilterGroups ds)) p
        = hasNode (objectHierarchy (buildFilterGroups ds')) p).
Proof.
  intro Hperm.
  destruct (collectValues_fields ds (mkGroupValues [] [] [] [] [])) as [Hs [Hr [He [Ha Ho]]]].
  destruct (collectValues_fields ds' (mkGroupValues [] [] [] [] [])) as [Hs' [Hr' [He' [Ha' Ho']]]].
  cbn [scene_values robot_values end_values action_values object_values] in *.
  split.
  - intros key x. unfold flatValues, buildFilterGroups. cbn [group_of].
    repeat match goal with
           | |- context [String.eqb ?k key] => destruct (String.eqb k key)
           end; try reflexivity; unfold collectValues.
    + rewrite Hs, Hs'. apply has_collected, Hperm.
    + rewrite Hr, Hr'. apply has_collected, Hperm.
    + rewrite He, He'. apply has_collected, Hperm.
    + rewrite Ha, Ha'. apply has_collected, Hperm.
  - intro p. unfold objectHierarchy, buildFilterGroups. cbn. unfold collectValues.
    rewrite Ho, Ho', !hasNode_insert. f_equal. f_equal.
    apply existsb_same_members. intro a.
    pose proof (Permutation_flat_map objectPaths Hperm) as Hflat.
    split; apply Permutation_in; [exact Hflat | symmetry; exact Hflat].
Qed.

End FacetIndexFacts.

(** ** Where the filter evaluator meets its contract *)

Section EvaluatorContract.

Lemma filters_get_push F k v k' :
  filters_get (filters_push F k v) k'
  = if String.eqb k k'
    then Some (match filters_get F k with Some vs => vs ++ [v] | None => [v] end)
    else filters_get F k'.
Proof.
  induction F as [|[k0 vs0] F IH]; simpl.
  - destruct (String.eqb k k'); reflexivity.
  - destruct (String.eqb_spec k0 k) as [->|Hk0]; simpl.
    + destruct (String.eqb k k'); reflexivity.
    + rewrite IH. destruct (String.eqb_spec k0 k') as [->|Hk0'].
      * destruct (String.eqb_spec k k') as [->|_]; [contradiction | reflexivity].
      * reflexivity.
Qed.

Lemma filters_push_keys F k v k' :
  In k' (map fst (filters_push F k v)) <-> In k' (map fst F) \/ k' = k.
Proof.
  induction F as [|[k0 vs0] F IH]; simpl.
  - intuition.
  - destruct (String.eqb_spec k0 k) as [->|Hk0]; simpl.
    + intuition.
    + rewrite IH. intuition.
Qed.

Lemma filters_push_NoDup F k v :
  NoDup (map fst F) -> NoDup (map fst (filters_push F k v)).
Proof.
  induction F as [|[k0 vs0] F IH]; simpl; intro H.
  - repeat constructor. intros [].
  - inversion H as [|? ? Hout Hrest]; subst.
    destruct (String.eqb_spec k0 k) as [->|Hk0]; simpl.
    + constructor; assumption.
    + constructor; [|apply IH, Hrest].
      rewrite filters_push_keys. intros [Hin|Heq]; [contradiction | congruence].
Qed.

Lemma collectFilters_NoDup s : NoDup (map fst (collectFilters s)).
Proof.
  induction s as [|id s IH] using rev_ind; [constructor|].
  rewrite collectFilters_app. apply filters_push_NoDup, IH.
Qed.

Lemma filters_get_In F k vs :
  NoDup (map fst F) -> (In (k, vs) F <-> filters_get F k = Some vs).
Proof.
  induction F as [|[k0 vs0] F IH]; simpl; intro H.
  - split; [intros [] | discriminate].
  - inversion H as [|? ? Hout Hrest]; subst.
    destruct (String.eqb_spec k0 k) as [->|Hk0].
    + split.
      * intros [Heq|Hin]; [inversion Heq; reflexivity|].
        exfalso. apply Hout. apply (in_map fst) in Hin. exact Hin.
      * intro Heq. inversion Heq. left. reflexivity.
    + rewrite <- (IH Hrest). split.
      * intros [Heq|Hin]; [inversion Heq; contradiction | exact Hin].
      * intro Hin. right. exact Hin.
Qed.

(** The values collected under a key are the second parts of the selected
    identifiers whose first part is the key. *)
Lemma collectFilters_get s : forall k,
  match filters_get (collectFilters s) k with
  | Some vs =>
      vs <> [] /\ forall val, In val vs <-> exists id, In id s /\ parseFilterId id = (k, val)
  | None => forall id, In id s -> fst (parseFilterId id) <> k
  end.
Proof.
  induction s as [|id0 s IH] using rev_ind; intro k; [intros id []|].
  rewrite collectFilters_app, filters_get_push.
  destruct (parseFilterId id0) as [k0 v0] eqn:Hparse. cbn [fst snd].
  destruct (String.eqb_spec k0 k) as [->|Hk0].
  - specialize (IH k). destruct (filters_get (collectFilters s) k) as [vs|].
    + destruct IH as [_ IH]. split; [destruct vs; discriminate|].
      intro val. rewrite in_app_iff, IH. split.
      * intros [[id [Hid Hp]]|[<-|[]]].
        -- exists id. split; [apply in_or_app; left; exact Hid | exact Hp].
        -- exists id0. split; [apply in_or_app; right; left; reflexivity | exact Hparse].
      * intros [id [Hid Hp]]. apply in_app_or in Hid. destruct Hid as [Hid|[<-|[]]].
        -- left. exists id. split; assumption.
        -- right. left. congruence.
    + split; [discriminate|]. intro val. split.
      * intros [<-|[]]. exists id0.
        split; [apply in_or_app; right; left; reflexivity | exact Hparse].
      * intros [id [Hid Hp]]. apply in_app_or in Hid. destruct Hid as [Hid|[<-|[]]].
        -- exfalso. apply (IH id Hid). rewrite Hp. reflexivity.
        -- left. congruence.
  - specialize (IH k). destruct (filters_get (collectFilters s) k) as [vs|].
    + destruct IH as [Hne IH]. split; [exact Hne|]. intro val. rewrite IH. split.
      * intros [id [Hid Hp]]. exists id. split; [apply in_or_app; left; exact Hid | exact Hp].
      * intros [id [Hid Hp]]. apply in_app_or in Hid. destruct Hid as [Hid|[<-|[]]].
        -- exists id. split; assumption.
        -- exfalso. apply Hk0. congruence.
    + intros id Hid. apply in_app_or in Hid. destruct Hid as [Hid|[<-|[]]].
      * apply IH, Hid.
      * rewrite Hparse. exact Hk0.
Qed.

Lemma existsb_swap {A B : Type} (f : A -> B -> bool) la lb :
  existsb (fun a => existsb (f a) lb) la = existsb (fun b => existsb (fun a => f a b) la) lb.
Proof.
  induction la as [|a la IH]; simpl.
  - induction lb as [|b lb IHb]; simpl; [reflexivity | exact IHb].
  - rewrite IH. clear IH. induction lb as [|b lb IHb]; simpl; [reflexivity|].
    rewrite <- IHb. destruct (f a b); simpl; [reflexivity|].
    destruct (existsb (f a) lb); destruct (existsb (fun a0 => f a0 b) la); reflexivity.
Qed.

Lemma existsb_const_false {A : Type} (l : list A) : existsb (fun _ => false) l = false.
Proof. induction l; simpl; auto. Qed.

Lemma existsb_single {A : Type} (f : A -> bool) a : existsb f [a] = f a.
Proof. simpl. apply orb_false_r. Qed.

(** A record matches the values of a key when it matches one of them. *)
Lemma facetMatch_existsb ds key values :
  facetMatch ds key values = existsb (fun val => facetMatch ds key [val]) values.
Proof.
  unfold facetMatch, values_includes.
  repeat match goal with
         | |- context [String.eqb key ?k] => destruct (String.eqb key k)
         end.
  - destruct (scenes ds) as [l|]; [|symmetry; apply existsb_const_false].
    rewrite existsb_swap. apply existsb_ext. intro val.
    apply existsb_ext. intro v. symmetry. apply existsb_single.
  - rewrite existsb_swap. apply existsb_ext. intro val.
    apply existsb_ext. intro r. symmetry. apply existsb_single.
  - apply existsb_ext. intro val. symmetry. apply existsb_single.
  - destruct (actions ds) as [l|]; [|symmetry; apply existsb_const_false].
    rewrite existsb_swap. apply existsb_ext. intro val.
    apply existsb_ext. intro v. symmetry. apply existsb_single.
  - destruct (objects ds) as [objs|]; [|symmetry; apply existsb_const_false].
    rewrite (existsb_ext _ (fun obj => existsb (fun val =>
               existsb (fun h => sameValue (Some h) val) (hierarchy obj)) values) objs)
      by (intro obj; apply existsb_swap).
    rewrite existsb_swap. apply existsb_ext. intro val.
    apply existsb_ext. intro obj. apply existsb_ext. intro h.
    symmetry. apply existsb_single.
  - symmetry. apply existsb_const_false.
Qed.







End EvaluatorContract.

(** ** The scenarios of the specification *)

Section Scenarios.

(** Selecting [scene:kitchen] keeps A and B; selecting [scene:office] as
    well keeps all three. *)
Example scenario_scenes :
  applyFilters [recordA; recordB; recordC] ["scene:kitchen"] "" = [recordA; recordB]
  /\ applyFilters [recordA; recordB; recordC] ["scene:kitchen"; "scene:office"] ""
     = [recordA; recordB; recordC].
Proof. split; reflexivity. Qed.

(** Two paths below [tool] give two leaves, under a root that is no leaf. *)
Example scenario_hierarchy :
  countHierarchyItems (insertAll [["tool"; "hammer"]; ["tool"; "saw"]]) = 2%nat
  /\ insertAll [["tool"; "hammer"]; ["tool"; "saw"]]
     = [("tool", mkNode [("hammer", mkNode [] true); ("saw", mkNode [] true)] false)].
Proof. split; reflexivity. Qed.

(** A scalar robot matches like a list that holds it. *)
Example scenario_robot :
  let scalar := mkDataset "S" "S" None (Some (RobotString "armX")) None None None in
  let array := mkDataset "L" "L" None (Some (RobotArray ["armX"; "armY"])) None None None in
  applyFilters [scalar; array] ["robot:armX"] "" = [scalar; array].
Proof. reflexivity. Qed.

(** The query "ham" matches one of three options, and ['next'] followed by
    ['prev'] comes back to it. *)
Example scenario_finder :
  let st := searchFilterOptions (newFilterManager [])
              (Some [Some "hammer"; Some "saw"; Some "tool"]) "ham" in
  filterFinderMatches st = [mkMatch 0 "hammer"]
  /\ filterFinderDisplay st = (1%Z, 1%Z)
  /\ match navigateFilterMatch st "next" with
     | Some st' => navigateFilterMatch st' "prev"
     | None => None
     end = Some st.
Proof. repeat split; reflexivity. Qed.

End Scenarios.

(** * Further properties of the code *)

(** ** The filter evaluator *)

Section EvaluatorMore.


Lemma filter_none {A : Type} (f : A -> bool) l :
  (forall a, f a = false) -> filter f l = [].
Proof.
  intro H. induction l as [|a l IH]; simpl; [reflexivity|]. rewrite H. exact IH.
Qed.


(** The test of all collected filters passes from one selection set to
    another with the same members. *)
Lemma collected_test_members ds s s' :
  (forall id, In id s <-> In id s') ->
  forallb (fun '(key, values) => facetMatch ds key values) (collectFilters s) = true ->
  forallb (fun '(key, values) => facetMatch ds key values) (collectFilters s') = true.
Proof.
  intros Hsame Hall. rewrite forallb_forall in *. intros [k vs'] Hin'.
  apply (filters_get_In _ _ _ (collectFilters_NoDup s')) in Hin'.
  pose proof (collectFilters_get s' k) as Hget'. rewrite Hin' in Hget'.
  destruct Hget' as [Hne' Hvs'].
  pose proof (collectFilters_get s k) as Hget.
  destruct (filters_get (collectFilters s) k) as [vs|] eqn:Hk.
  - destruct Hget as [_ Hvs].
    apply (filters_get_In _ _ _ (collectFilters_NoDup s)) in Hk.
    specialize (Hall (k, vs) Hk). cbn in Hall.
    rewrite facetMatch_existsb in Hall |- *.
    rewrite <- Hall. apply existsb_same_members. intro val.
    rewrite Hvs, Hvs'. split; intros [id [Hid Hp]]; exists id; (split; [apply Hsame, Hid | exact Hp]).
  - exfalso. destruct vs' as [|val vs']; [contradiction|].
    destruct (proj1 (Hvs' val) (or_introl eq_refl)) as [id [Hid Hp]].
    apply (Hget id); [apply Hsame, Hid | rewrite Hp; reflexivity].
Qed.


End EvaluatorMore.



(** X2. The result of [applyFilters] depends on which identifiers the
    selection set holds, not on the order in which they were added: two
    selection sets with the same members give the same records for every
    catalog and query. *)
Theorem applyFilters_same_members :
  forall (catalog : list Dataset) (s s' : JSSet) (query : string),
    (forall id, In id s <-> In id s') ->
    applyFilters catalog s query = applyFilters catalog s' query.
Proof.
  intros catalog s s' query Hsame. unfold applyFilters. apply filter_ext. intro ds.
  unfold passesFilters.
  destruct (negb (String.eqb query "")
            && negb (includes (toLowerCase (name ds)) (toLowerCase query))); [reflexivity|].
  apply Bool.eq_iff_eq_true. split; apply collected_test_members.
  - exact Hsame.
  - intro id. symmetry. apply Hsame.
Qed.

Lemma applyFilters_same_members_witness :
  (forall id, In id ["scene:kitchen"; "robot:armX"] <-> In id ["robot:armX"; "scene:kitchen"])
  /\ applyFilters [recordA; recordB; recordC] ["scene:kitchen"; "robot:armX"] ""
     = applyFilters [recordA; recordB; recordC] ["robot:armX"; "scene:kitchen"] "".
Proof.
  assert (Hsame : forall id, In id ["scene:kitchen"; "robot:armX"]
                             <-> In id ["robot:armX"; "scene:kitchen"]).
  { intro id. simpl. tauto. }
  split; [exact Hsame|].
  exact (applyFilters_same_members [recordA; recordB; recordC] _ _ "" Hsame).
Defined.





(** ** The affected-count calculator and the facet index *)

Section CountsAndIndex.

Lemma affects_unknown key value ds : ~ In key facetKeys -> affects key value ds = false.
Proof.
  intro Hkey. unfold affects.
  repeat match goal with
         | |- context [String.eqb key ?k] =>
             destruct (String.eqb_spec key k) as [->|_];
             [exfalso; apply Hkey; unfold facetKeys; simpl; tauto|]
         end.
  reflexivity.
Qed.

Lemma count_positive datasets key value d :
  In d datasets -> affects key value d = true ->
  (1 <= calculateAffectedCount datasets key value)%nat.
Proof.
  intros Hd Haff. rewrite calculateAffectedCount_filter.
  assert (Hin : In d (filter (affects key value) datasets)) by (apply filter_In; auto).
  destruct (filter (affects key value) datasets); [destruct Hin | simpl; lia].
Qed.

Lemma flatValues_build datasets key :
  flatValues (buildFilterGroups datasets) key
  = fold_left StrSet.add (flat_map (contributed key) datasets) [].
Proof.
  destruct (collectValues_fields datasets (mkGroupValues [] [] [] [] []))
    as [Hs [Hr [He [Ha _]]]].
  cbn [scene_values robot_values end_values action_values] in *.
  unfold flatValues, buildFilterGroups, contributed. cbn [group_of].
  destruct (String.eqb_spec key "scene") as [->|Hscene]; [exact Hs|].
  rewrite (proj2 (String.eqb_neq "scene" key)) by congruence.
  destruct (String.eqb_spec key "robot") as [->|Hrobot]; [exact Hr|].
  rewrite (proj2 (String.eqb_neq "robot" key)) by congruence.
  destruct (String.eqb_spec key "end") as [->|Hend]; [exact He|].
  rewrite (proj2 (String.eqb_neq "end" key)) by congruence.
  destruct (String.eqb_spec key "action") as [->|Haction]; [exact Ha|].
  rewrite (proj2 (String.eqb_neq "action" key)) by congruence.
  assert (Hnone : fold_left StrSet.add (flat_map (fun _ : Dataset => []) datasets) [] = []).
  { clear. induction datasets; simpl; auto. }
  rewrite Hnone. destruct (String.eqb "object" key); reflexivity.
Qed.

Lemma objectHierarchy_build datasets :
  objectHierarchy (buildFilterGroups datasets) = insertAll (flat_map objectPaths datasets).
Proof.
  destruct (collectValues_fields datasets (mkGroupValues [] [] [] [] []))
    as [_ [_ [_ [_ Ho]]]].
  exact Ho.
Qed.

Lemma In_fold_add ids x : In x (fold_left StrSet.add ids []) <-> In x ids.
Proof.
  rewrite <- !StrSetFacts.arr_includes_In.
  change (arr_includes (fold_left StrSet.add ids []) x)
    with (StrSet.has (fold_left StrSet.add ids []) x).
  rewrite StrSetFacts.has_fold_add. reflexivity.
Qed.

Lemma contributed_affects key x d :
  In x (contributed key d) -> affects key x d = true.
Proof.
  unfold contributed, affects, sceneList, robotList, endList, actionList,
    values_includes, arr_includes, robots_of.
  destruct (String.eqb key "scene").
  { destruct (scenes d) as [l|]; [|intros []]. intro H.
    apply existsb_exists. exists x. split; [exact H | apply String.eqb_refl]. }
  destruct (String.eqb key "robot").
  { destruct (robot d) as [[r|rs]|]; [| |intros []].
    - destruct (truthy r); [|intros []]. intros [<-|[]]. simpl.
      rewrite String.eqb_refl. reflexivity.
    - intro H. apply existsb_exists. exists (Some x).
      split; [apply in_map, H | simpl; apply String.eqb_refl]. }
  destruct (String.eqb key "end").
  { destruct (endEffector d) as [e|]; [|intros []].
    destruct (truthy e); [|intros []]. intros [<-|[]]. simpl. apply String.eqb_refl. }
  destruct (String.eqb key "action").
  { destruct (actions d) as [l|]; [|intros []]. intro H.
    apply existsb_exists. exists x. split; [exact H | apply String.eqb_refl]. }
  intros [].
Qed.

Lemma isPrefix_last : forall p q,
  p <> [] -> isPrefix p q = true -> In (last p EmptyString) q.
Proof.
  induction p as [|a p IH]; intros q Hne Hpq; [contradiction|].
  destruct q as [|b q]; [discriminate|]. simpl in Hpq.
  apply andb_true_iff in Hpq. destruct Hpq as [Hab Hpq].
  apply String.eqb_eq in Hab. subst b.
  destruct p as [|a' p'].
  - left. reflexivity.
  - right. change (last (a :: a' :: p') EmptyString) with (last (a' :: p') EmptyString).
    apply IH; [discriminate | exact Hpq].
Qed.

Lemma objectPaths_affects d q x :
  In q (objectPaths d) -> In x q -> affects "object" x d = true.
Proof.
  unfold objectPaths, affects. cbn.
  destruct (objects d) as [objs|]; [|intros []].
  intros Hq Hx. apply in_map_iff in Hq. destruct Hq as [obj [<- Hobj]].
  apply existsb_exists. exists obj. split; [exact Hobj|].
  apply StrSetFacts.arr_includes_In, Hx.
Qed.

Lemma add_NoDup s x : NoDup s -> NoDup (StrSet.add s x).
Proof.
  intro Hs. unfold StrSet.add. destruct (StrSet.has s x) eqn:Hx; [exact Hs|].
  apply NoDup_app; [exact Hs | repeat constructor; intros [] |].
  intros a Ha [<-|[]]. apply StrSetFacts.arr_includes_In in Ha.
  unfold StrSet.has in Hx. congruence.
Qed.

Lemma fold_add_NoDup ids : forall s, NoDup s -> NoDup (fold_left StrSet.add ids s).
Proof.
  induction ids as [|i ids IH]; intros s Hs; simpl; [exact Hs|].
  apply IH, add_NoDup, Hs.
Qed.

Lemma size_fold_add ids : StrSet.size (fold_left StrSet.add ids []) = distinctValues ids.
Proof.
  unfold StrSet.size, distinctValues. apply Permutation_length, NoDup_Permutation.
  - apply fold_add_NoDup. constructor.
  - apply NoDup_nodup.
  - intro x. rewrite nodup_In. apply In_fold_add.
Qed.

Lemma insert_skips_empty paths : forall m,
  fold_left addToHierarchy (filter nonEmpty paths) m = fold_left addToHierarchy paths m.
Proof.
  induction paths as [|q paths IH]; intro m; [reflexivity|].
  destruct q as [|a q]; simpl; apply IH.
Qed.

End CountsAndIndex.

(** X5. For every facet key and every value that holds no colon, the
    affected count is the number of records that [applyFilters] returns under
    the single selection of that value and an empty query. *)
Theorem calculateAffectedCount_single_selection :
  forall (datasets : list Dataset) (f v : string),
    In f facetKeys ->
    hasChar ":" v = false ->
    calculateAffectedCount datasets f v = length (applyFilters datasets [filterIdOf f v] "").
Proof. intros datasets f v Hf Hv. apply calculateAffectedCount_applyFilters; assumption. Qed.

Lemma calculateAffectedCount_single_selection_witness :
  In "scene" facetKeys
  /\ hasChar ":" "kitchen" = false
  /\ calculateAffectedCount [recordA; recordB; recordC] "scene" "kitchen"
     = length (applyFilters [recordA; recordB; recordC] [filterIdOf "scene" "kitchen"] "").
Proof.
  assert (Hf : In "scene" facetKeys) by (left; reflexivity).
  split; [exact Hf|]. split; [reflexivity|].
  exact (calculateAffectedCount_single_selection _ "scene" "kitchen" Hf eq_refl).
Defined.

(** X6. The affected count never exceeds the number of records, it is the
    number of records that the per-record test accepts, and for a key that is
    none of the five facet keys it is zero. *)
Theorem calculateAffectedCount_bounds :
  forall (datasets : list Dataset) (key value : string),
    calculateAffectedCount datasets key value = length (filter (affects key value) datasets)
    /\ (calculateAffectedCount datasets key value <= length datasets)%nat
    /\ (~ In key facetKeys -> calculateAffectedCount datasets key value = 0%nat).
Proof.
  intros datasets key value. rewrite calculateAffectedCount_filter.
  split; [reflexivity|]. split; [apply filter_length_le|].
  intro Hkey. rewrite (filter_none (affects key value) datasets); [reflexivity|].
  intro d. apply affects_unknown, Hkey.
Qed.

(** X7. Every option of the facet index matches a record: each value of a
    flat group built by [buildFilterGroups], and the label of each node of the
    object hierarchy, has an affected count of at least one. *)
Theorem options_have_records :
  forall (datasets : list Dataset),
    (forall key x,
        In x (flatValues (buildFilterGroups datasets) key) ->
        (1 <= calculateAffectedCount datasets key x)%nat)
    /\ (forall p node,
          nodeAt (objectHierarchy (buildFilterGroups datasets)) p = Some node ->
          (1 <= calculateAffectedCount datasets "object" (last p EmptyString))%nat).
Proof.
  intro datasets. split.
  - intros key x Hx. rewrite flatValues_build in Hx.
    apply (proj1 (In_fold_add _ _)) in Hx.
    apply in_flat_map in Hx. destruct Hx as [d [Hd Hx]].
    apply (count_positive datasets key x d Hd). apply contributed_affects, Hx.
  - intros p node Hnode. rewrite objectHierarchy_build in Hnode.
    apply nodeAt_hasNode in Hnode. rewrite hasNode_insertAll in Hnode.
    apply andb_true_iff in Hnode. destruct Hnode as [Hne Hex].
    apply existsb_exists in Hex. destruct Hex as [q [Hq Hpq]].
    apply in_flat_map in Hq. destruct Hq as [d [Hd Hq]].
    apply (count_positive datasets "object" _ d Hd).
    apply (objectPaths_affects d q); [exact Hq|].
    apply isPrefix_last; [destruct p; [discriminate | discriminate] | exact Hpq].
Qed.

(** X8. What the facet index holds. A value is in a flat group exactly when
    some record contributes it (an element of [scenes], [actions] or an array
    [robot], a non-empty scalar [robot], a non-empty [endEffector]); a path
    leads to a node of the object hierarchy exactly when it is a non-empty
    initial part of the hierarchy of some object of some record. *)
Theorem buildFilterGroups_contents :
  forall (datasets : list Dataset),
    (forall key x,
        In x (flatValues (buildFilterGroups datasets) key)
        <-> exists d, In d datasets /\ In x (contributed key d))
    /\ (forall p,
          hasNode (objectHierarchy (buildFilterGroups datasets)) p = true
          <-> p <> [] /\ exists d q, In d datasets /\ In q (objectPaths d)
                                     /\ isPrefix p q = true).
Proof.
  intro datasets. split.
  - intros key x. rewrite flatValues_build, In_fold_add, in_flat_map. reflexivity.
  - intro p. rewrite objectHierarchy_build, hasNode_insertAll, andb_true_iff, existsb_exists.
    split.
    + intros [Hne [q [Hq Hpq]]]. split; [destruct p; [discriminate | discriminate]|].
      apply in_flat_map in Hq. destruct Hq as [d [Hd Hq]]. exists d, q. auto.
    + intros [Hne [d [q [Hd [Hq Hpq]]]]]. split; [destruct p; [contradiction | reflexivity]|].
      exists q. split; [apply in_flat_map; exists d; auto | exact Hpq].
Qed.

(** X9. The facet index does not depend on the order of the records as far
    as its values and nodes go: for two catalogs that are permutations of each
    other, every flat group has the same members and the object hierarchy has
    a node at the same paths. *)
Theorem buildFilterGroups_order :
  forall (datasets datasets' : list Dataset),
    Permutation datasets datasets' ->
    (forall key x,
        StrSet.has (flatValues (buildFilterGroups datasets) key) x
        = StrSet.has (flatValues (buildFilterGroups datasets') key) x)
    /\ (forall p,
          hasNode (objectHierarchy (buildFilterGroups datasets)) p
          = hasNode (objectHierarchy (buildFilterGroups datasets')) p).
Proof. intros datasets datasets' Hperm. apply buildFilterGroups_permutation, Hperm. Qed.

Lemma buildFilterGroups_order_witness :
  Permutation [hammerRecord; toolRecord] [toolRecord; hammerRecord]
  /\ hasNode (objectHierarchy (buildFilterGroups [hammerRecord; toolRecord])) ["tool"; "hammer"]
     = hasNode (objectHierarchy (buildFilterGroups [toolRecord; hammerRecord])) ["tool"; "hammer"].
Proof.
  split; [apply perm_swap|].
  exact (proj2 (buildFilterGroups_order _ _ (perm_swap toolRecord hammerRecord [])) _).
Defined.

(** X10. The count that [getCategoryItemCount] shows for a category of the
    built index: for a flat group the number of different values the records
    contribute, for the object group the number of different non-empty object
    paths that no other object path extends, and zero for a key that names no
    group. *)
Theorem getCategoryItemCount_built :
  forall (datasets : list Dataset) (key : string),
    getCategoryItemCount (buildFilterGroups datasets) key
    = if String.eqb key "object"
      then distinctCount (maximalPaths (filter nonEmpty (flat_map objectPaths datasets)))
      else distinctValues (flat_map (contributed key) datasets).
Proof.
  intros datasets key.
  destruct (String.eqb_spec key "object") as [->|Hobj].
  - change (getCategoryItemCount (buildFilterGroups datasets) "object")
      with (countHierarchyItems (objectHierarchy (buildFilterGroups datasets))).
    rewrite objectHierarchy_build. unfold insertAll.
    rewrite <- insert_skips_empty. apply countHierarchyItems_insertAll.
    intros p Hp. apply filter_In in Hp. destruct Hp as [_ Hp]. destruct p; discriminate.
  - rewrite <- size_fold_add, <- flatValues_build.
    unfold getCategoryItemCount, flatValues, buildFilterGroups. cbn [group_of].
    destruct (String.eqb "scene" key); [reflexivity|].
    destruct (String.eqb "robot" key); [reflexivity|].
    destruct (String.eqb "end" key); [reflexivity|].
    destruct (String.eqb "action" key); [reflexivity|].
    destruct (String.eqb_spec "object" key) as [<-|_]; [contradiction | reflexivity].
Qed.

(** ** The hierarchy tree *)

Section HierarchyMore.

Lemma modify_same m k f node :
  HMap.get m k = Some node -> f node = node -> HMap.modify m k f = m.
Proof.
  induction m as [|[k0 n0] m IH]; simpl; [reflexivity|].
  destruct (String.eqb k0 k).
  - intros Hget Hf. inversion Hget; subst. rewrite Hf. reflexivity.
  - intros Hget Hf. rewrite (IH Hget Hf). reflexivity.
Qed.

Lemma addLevels_absorb levels : forall m,
  addLevels (addLevels m levels) levels = addLevels m levels.
Proof.
  induction levels as [|level rest IH]; intro m; [reflexivity|].
  pose proof (get_addLevels m level rest level) as Hget.
  rewrite String.eqb_refl in Hget.
  set (m1 := addLevels m (level :: rest)) in *.
  cbn [addLevels]. rewrite has_get, Hget. cbn [negb].
  apply (modify_same m1 level _ _ Hget).
  destruct (HMap.get m level) as [node|]; cbn [children isLeaf]; rewrite IH; reflexivity.
Qed.

Lemma findHierarchyNode_parts m path :
  findHierarchyNode m path
  = if arr_includes (removelast (split ">" path)) (last (split ">" path) EmptyString)
    then None
    else nodeAt m (split ">" path).
Proof.
  apply findHierarchyNode_result, app_removelast_last.
  destruct (split_head ">" path) as [pieces ->]. discriminate.
Qed.

Lemma findHierarchyNode_sound m path node :
  findHierarchyNode m path = Some node -> nodeAt m (split ">" path) = Some node.
Proof.
  rewrite findHierarchyNode_parts. destruct (arr_includes _ _); [discriminate | tauto].
Qed.

End HierarchyMore.

(** X11. The nodes of a hierarchy after [addToHierarchy]: a path leads to a
    node afterwards exactly when it led to one before or is a non-empty initial
    part of the inserted path. An empty path inserts nothing. *)
Theorem addToHierarchy_nodes :
  forall (m : Hierarchy) (levels p : list string),
    hasNode (addToHierarchy m levels) p
    = hasNode m p || (nonEmpty p && isPrefix p levels).
Proof.
  intros m levels p. rewrite addToHierarchy_addLevels. apply hasNode_addLevels.
Qed.

(** X12. Inserting a path a second time changes nothing: [addToHierarchy] with
    the same labels, applied to its own result, returns that result, maps,
    order of entries and flags included. *)
Theorem addToHierarchy_idempotent :
  forall (m : Hierarchy) (levels : list string),
    addToHierarchy (addToHierarchy m levels) levels = addToHierarchy m levels.
Proof.
  intros m levels. rewrite !addToHierarchy_addLevels. apply addLevels_absorb.
Qed.

(** X13. The [isLeaf] flag of a node of a hierarchy built from an empty one
    is decided by the first inserted path that passes through the node: the
    flag is true exactly when that path ends at the node. A node with a true
    flag is therefore the end of an inserted path, and an insertion never
    changes the flag of a node that exists. *)
Theorem isLeaf_first_path :
  forall (paths : list (list string)) (p : list string) (node : HierarchyNode),
    nodeAt (insertAll paths) p = Some node ->
    isLeaf node = markedBy paths p
    /\ (isLeaf node = true -> In p paths)
    /\ (forall levels node',
          nodeAt (addToHierarchy (insertAll paths) levels) p = Some node' ->
          isLeaf node' = isLeaf node).
Proof.
  intros paths p node Hnode. split; [|split].
  - apply isLeaf_insertAll, Hnode.
  - apply isLeaf_inserted, Hnode.
  - intros levels node' Hnode'. rewrite addToHierarchy_addLevels in Hnode'.
    rewrite (isLeaf_addLevels levels _ p node' Hnode'), Hnode. reflexivity.
Qed.

Lemma isLeaf_first_path_witness :
  nodeAt (insertAll branchPaths) ["tool"] = Some (mkNode [("hammer", mkNode [] true)] true)
  /\ isLeaf (mkNode [("hammer", mkNode [] true)] true) = markedBy branchPaths ["tool"].
Proof.
  assert (Hnode : nodeAt (insertAll branchPaths) ["tool"]
                  = Some (mkNode [("hammer", mkNode [] true)] true)) by reflexivity.
  split; [exact Hnode|].
  exact (proj1 (isLeaf_first_path branchPaths ["tool"] _ Hnode)).
Defined.

(** X14. What [findHierarchyNode] returns for a path string: when the last
    label of the path occurs earlier in the path, [null]; otherwise the node
    reached by descending through the labels in order, and [null] when a label
    is missing on the way. A node it returns is always the node of that
    descent. *)
Theorem findHierarchyNode_exact :
  forall (m : Hierarchy) (path : string),
    findHierarchyNode m path
    = (if arr_includes (removelast (split ">" path)) (last (split ">" path) EmptyString)
       then None
       else nodeAt m (split ">" path))
    /\ (forall node, findHierarchyNode m path = Some node ->
                     nodeAt m (split ">" path) = Some node).
Proof.
  intros m path. split.
  - apply findHierarchyNode_parts.
  - intro node. apply findHierarchyNode_sound.
Qed.

(** ** Traversals of the hierarchy *)

Section WalkFacts.

Context {S : Type}.
Variable test : HierarchyNode -> bool.
Variable op : string -> S -> S.

Lemma fold_flat_map {A B : Type} (f : S -> B -> S) (g : A -> list B) l : forall s,
  fold_left f (flat_map g l) s = fold_left (fun acc a => fold_left f (g a) acc) l s.
Proof.
  induction l as [|a l IH]; intro s; simpl; [reflexivity|].
  rewrite fold_left_app. apply IH.
Qed.

Lemma pathsWhereNode_nonempty label node p :
  In p (pathsWhereNode test label node) -> exists p', p = label :: p'.
Proof.
  destruct node as [ch leaf]. cbn [pathsWhereNode]. intro H.
  apply in_app_or in H. destruct H as [H|H].
  - destruct (test (mkNode ch leaf)); [|destruct H].
    destruct H as [<-|[]]. exists []. reflexivity.
  - apply in_map_iff in H. destruct H as [p' [<- _]]. exists p'. reflexivity.
Qed.

Lemma pathsWhere_nonempty m p : In p (pathsWhere test m) -> p <> [].
Proof.
  unfold pathsWhere. intro H. apply in_flat_map in H. destruct H as [[k n] [_ H]].
  apply pathsWhereNode_nonempty in H. destruct H as [p' ->]. discriminate.
Qed.

Lemma fold_map_cons label (paths : list (list string)) : forall s,
  (forall p, In p paths -> p <> []) ->
  fold_left (fun acc p => op (lastLabel p) acc) (map (cons label) paths) s
  = fold_left (fun acc p => op (lastLabel p) acc) paths s.
Proof.
  induction paths as [|p paths IH]; intros s Hne; [reflexivity|].
  cbn [map fold_left].
  assert (Hlast : lastLabel (label :: p) = lastLabel p).
  { destruct p; [exfalso; apply (Hne []); [left; reflexivity | reflexivity] | reflexivity]. }
  rewrite Hlast. apply IH. intros q Hq. apply Hne. right. exact Hq.
Qed.

(** A traversal applies [op] with the last label of each path to a node that
    passes the test, in order. *)
Lemma walkNode_paths node : forall label s,
  walkNode test op label node s
  = fold_left (fun acc p => op (lastLabel p) acc) (pathsWhereNode test label node) s.
Proof.
  induction node as [ch leaf IH] using HierarchyNode_nested_ind. intros label s.
  cbn [walkNode pathsWhereNode]. rewrite fold_left_app.
  set (s' := if test (mkNode ch leaf) then op label s else s).
  assert (Hhead : fold_left (fun acc p => op (lastLabel p) acc)
                    (if test (mkNode ch leaf) then [[label]] else []) s = s').
  { unfold s'. destruct (test (mkNode ch leaf)); reflexivity. }
  rewrite Hhead.
  rewrite fold_map_cons by (intros p Hp; apply (pathsWhere_nonempty ch p Hp)).
  rewrite fold_flat_map.
  assert (Hch : fold_left (fun acc entry => walkNode test op (fst entry) (snd entry) acc) ch s'
                = fold_left (fun acc entry =>
                               fold_left (fun acc' p => op (lastLabel p) acc')
                                         (pathsWhereNode test (fst entry) (snd entry)) acc)
                            ch s').
  { generalize s'. clear Hhead s'. induction IH as [|e l He _ IHl]; intro s0; [reflexivity|].
    cbn [fold_left]. rewrite He. apply IHl. }
  destruct ch as [|e ch]; [reflexivity|]. exact Hch.
Qed.

Lemma walk_paths m s :
  walk test op m s = fold_left (fun acc p => op (lastLabel p) acc) (pathsWhere test m) s.
Proof.
  unfold walk, pathsWhere. rewrite fold_flat_map. revert s.
  induction m as [|e m IH]; intro s; [reflexivity|].
  cbn [fold_left]. rewrite walkNode_paths. apply IH.
Qed.

Lemma pathsWhere_cons k ch leaf rest :
  pathsWhere test ((k, mkNode ch leaf) :: rest)
  = (if test (mkNode ch leaf) then [[k]] else [])
    ++ map (cons k) (pathsWhere test ch) ++ pathsWhere test rest.
Proof. unfold pathsWhere. cbn. rewrite <- app_assoc. reflexivity. Qed.

Lemma pathsWhere_head m p : In p (pathsWhere test m) -> exists k p', p = k :: p' /\ In k (keys m).
Proof.
  unfold pathsWhere. intro H. apply in_flat_map in H. destruct H as [[k n] [Hin H]].
  apply pathsWhereNode_nonempty in H. destruct H as [p' ->]. exists k, p'.
  split; [reflexivity|]. apply (in_map fst) in Hin. exact Hin.
Qed.

(** The paths listed are the paths to the nodes that pass the test. *)
Lemma pathsWhere_spec m : wf m -> forall p,
  In p (pathsWhere test m) <-> exists node, nodeAt m p = Some node /\ test node = true.
Proof.
  induction m as [|k ch leaf rest IHch IHrest] using Hierarchy_ind2; intros Hwf p.
  - split; [intros [] | intros [node [H _]]; destruct p; discriminate].
  - apply wf_cons in Hwf. destruct Hwf as [Hk [Hch Hrest]].
    rewrite pathsWhere_cons, !in_app_iff. split.
    + intros [Hp|[Hp|Hp]].
      * destruct (test (mkNode ch leaf)) eqn:Htest; [|destruct Hp].
        destruct Hp as [<-|[]]. exists (mkNode ch leaf). simpl.
        rewrite String.eqb_refl. split; [reflexivity | exact Htest].
      * apply in_map_iff in Hp. destruct Hp as [p' [<- Hp']].
        apply (IHch Hch) in Hp'. destruct Hp' as [node [Hnode Htest]].
        exists node. split; [|exact Htest]. simpl. rewrite String.eqb_refl.
        destruct p' as [|x p'']; [discriminate | exact Hnode].
      * pose proof Hp as Hp'. apply (IHrest Hrest) in Hp'.
        destruct Hp' as [node [Hnode Htest]]. exists node. split; [|exact Htest].
        destruct (pathsWhere_head rest p Hp) as [k' [p' [-> Hin]]].
        simpl. destruct (String.eqb_spec k k') as [->|_]; [contradiction | exact Hnode].
    + intros [node [Hnode Htest]]. destruct p as [|k' p']; [discriminate|].
      simpl in Hnode. destruct (String.eqb_spec k k') as [->|Hkk'].
      * destruct p' as [|x p''].
        -- inversion Hnode; subst. left. rewrite Htest. left. reflexivity.
        -- right. left. apply in_map. apply (IHch Hch). exists node. split; assumption.
      * right. right. apply (IHrest Hrest). exists node. split; assumption.
Qed.

End WalkFacts.

Section TraversalsAreWalks.

Lemma walk_entries {S : Type} (f g : string -> HierarchyNode -> S -> S) ch :
  Forall (fun entry => forall value s, f value (snd entry) s = g value (snd entry) s) ch ->
  forall s, fold_left (fun acc entry => f (fst entry) (snd entry) acc) ch s
            = fold_left (fun acc entry => g (fst entry) (snd entry) acc) ch s.
Proof.
  induction 1 as [|e l He _ IHl]; intro s; [reflexivity|].
  cbn [fold_left]. rewrite He. apply IHl.
Qed.

Lemma selectAllInNode_walk g node : forall value sel,
  selectAllInNode g value node sel
  = walkNode isLeaf (fun v s => StrSet.add s (filterIdOf g v)) value node sel.
Proof.
  induction node as [ch leaf IH] using HierarchyNode_nested_ind. intros value sel.
  cbn [selectAllInNode walkNode isLeaf].
  rewrite (walk_entries _ _ ch IH). reflexivity.
Qed.

Lemma selectAllInHierarchy_walk g m sel :
  selectAllInHierarchy g m sel
  = walk isLeaf (fun v s => StrSet.add s (filterIdOf g v)) m sel.
Proof.
  unfold selectAllInHierarchy, walk. apply walk_entries.
  apply Forall_forall. intros e _ value s. apply selectAllInNode_walk.
Qed.





Lemma staticCountsNode_walk datasets key node : forall value table,
  staticCountsNode datasets key value node table
  = walkNode (fun _ => true)
      (fun v t => Counts.set t (filterIdOf key v) (calculateAffectedCount datasets key v))
      value node table.
Proof.
  induction node as [ch leaf IH] using HierarchyNode_nested_ind. intros value table.
  cbn [staticCountsNode walkNode].
  rewrite (walk_entries _ _ ch IH). reflexivity.
Qed.

Lemma calculateStaticHierarchyCounts_walk datasets key m table :
  calculateStaticHierarchyCounts datasets key m table
  = walk (fun _ => true)
      (fun v t => Counts.set t (filterIdOf key v) (calculateAffectedCount datasets key v))
      m table.
Proof.
  unfold calculateStaticHierarchyCounts, walk. apply walk_entries.
  apply Forall_forall. intros e _ value s. apply staticCountsNode_walk.
Qed.

End TraversalsAreWalks.

(** ** Selecting and clearing groups and subtrees *)

Section GroupSelection.

Lemma has_fold_delete ids : forall s x,
  StrSet.has (fold_left StrSet.delete ids s) x = StrSet.has s x && negb (arr_includes ids x).
Proof.
  induction ids as [|i ids IH]; intros s x; simpl.
  - rewrite andb_true_r. reflexivity.
  - rewrite IH, StrSetFacts.has_delete, (String.eqb_sym x i), negb_orb, andb_assoc.
    reflexivity.
Qed.

Lemma has_In s x : StrSet.has s x = true <-> In x s.
Proof. apply StrSetFacts.arr_includes_In. Qed.

Lemma walk_add test g m sel :
  walk test (fun v s => StrSet.add s (filterIdOf g v)) m sel
  = fold_left StrSet.add (map (fun p => filterIdOf g (lastLabel p)) (pathsWhere test m)) sel.
Proof.
  rewrite walk_paths.
  apply (fold_left_map_arg StrSet.add (fun p => filterIdOf g (lastLabel p))).
Qed.


(** The identifiers of the nodes below a map that pass a test. *)
Lemma ids_of_paths test g m id :
  wf m ->
  (In id (map (fun p => filterIdOf g (lastLabel p)) (pathsWhere test m))
   <-> exists p node, nodeAt m p = Some node /\ test node = true
                      /\ id = filterIdOf g (lastLabel p)).
Proof.
  intro Hwf. rewrite in_map_iff. split.
  - intros [p [<- Hp]]. apply (pathsWhere_spec test m Hwf) in Hp.
    destruct Hp as [node [Hnode Htest]]. exists p, node. auto.
  - intros [p [node [Hnode [Htest ->]]]]. exists p. split; [reflexivity|].
    apply (pathsWhere_spec test m Hwf). exists node. auto.
Qed.


Lemma built_hierarchy_wf datasets : wf (objectHierarchy (buildFilterGroups datasets)).
Proof. rewrite objectHierarchy_build. apply wf_insertAll. Qed.



End GroupSelection.


(** X16. [selectAllInGroup('object')] on the index that [buildFilterGroups]
    built leaves selected what was selected and, for every node of the object
    hierarchy whose [isLeaf] is true, the identifier made of the node's own
    label, and nothing else. *)
Theorem selectAllInGroup_object :
  forall (st : State) (ds : list Dataset),
    filterGroups st = buildFilterGroups ds ->
    forall id,
      In id (selectedFilters (selectAllInGroup st "object"))
      <-> In id (selectedFilters st)
          \/ exists p node,
               nodeAt (objectHierarchy (buildFilterGroups ds)) p = Some node
               /\ isLeaf node = true
               /\ id = filterIdOf "object" (lastLabel p).
Proof.
  intros st ds Hgroups id.
  assert (Hsel : selectedFilters (selectAllInGroup st "object")
                 = selectAllInHierarchy "object" (objectHierarchy (buildFilterGroups ds))
                                        (selectedFilters st)).
  { unfold selectAllInGroup. rewrite Hgroups. reflexivity. }
  rewrite Hsel.
  rewrite selectAllInHierarchy_walk, walk_add.
  rewrite <- !has_In, StrSetFacts.has_fold_add, orb_true_iff, !has_In.
  rewrite (ids_of_paths isLeaf "object" _ id (built_hierarchy_wf ds)). reflexivity.
Qed.

Lemma selectAllInGroup_object_witness :
  filterGroups (buildFilterGroupsOn (newFilterManager [hammerRecord; toolRecord]) None "")
  = buildFilterGroups [hammerRecord; toolRecord]
  /\ (In "object:hammer"
         (selectedFilters
            (selectAllInGroup
               (buildFilterGroupsOn (newFilterManager [hammerRecord; toolRecord]) None "")
               "object"))
      <-> In "object:hammer"
            (selectedFilters
               (buildFilterGroupsOn (newFilterManager [hammerRecord; toolRecord]) None ""))
          \/ exists p node,
               nodeAt (objectHierarchy (buildFilterGroups [hammerRecord; toolRecord])) p
               = Some node
               /\ isLeaf node = true
               /\ "object:hammer" = filterIdOf "object" (lastLabel p)).
Proof.
  split; [reflexivity|].
  exact (selectAllInGroup_object
           (buildFilterGroupsOn (newFilterManager [hammerRecord; toolRecord]) None "")
           [hammerRecord; toolRecord] eq_refl "object:hammer").
Defined.




(** ** Debounced recomputation *)

Section DebounceMore.



End DebounceMore.

(** X19. In every state the filter manager can reach, at most one timer is
    live, and it is the one whose identifier the pending slot holds; when the
    slot is [null] no timer is live. *)
Theorem pending_slot_names_only_timer :
  forall st, reachable st ->
    (pendingFilterUpdate st = None /\ timers st = [])
    \/ (exists t, pendingFilterUpdate st = Some t /\ timers st = [t]
                  /\ (1 <= t < nextTimer st)%nat).
Proof.
  intros st Hreach. destruct (reachable_timers_ok st Hreach) as [_ Hslot].
  destruct (pendingFilterUpdate st) as [t|].
  - right. exists t. destruct Hslot. auto.
  - left. auto.
Qed.

Lemma pending_slot_names_only_timer_witness :
  reachable toggledOnce
  /\ ((pendingFilterUpdate toggledOnce = None /\ timers toggledOnce = [])
      \/ (exists t, pendingFilterUpdate toggledOnce = Some t /\ timers toggledOnce = [t]
                    /\ (1 <= t < nextTimer toggledOnce)%nat)).
Proof.
  split; [exact toggledOnce_reachable|].
  exact (pending_slot_names_only_timer toggledOnce toggledOnce_reachable).
Defined.



(** ** Filter Finder *)

Section FinderMore.





End FinderMore.



(** X22. What the finder displays in every state the manager can reach:
    "0/0" when there is no match, and otherwise a position between 1 and the
    number of matches. *)
Theorem filterFinderDisplay_range :
  forall st, reachable st ->
    let '(current, total) := filterFinderDisplay st in
    total = Z.of_nat (length (filterFinderMatches st))
    /\ ((total = 0 /\ current = 0) \/ (1 <= current <= total))%Z.
Proof.
  intros st Hreach. unfold filterFinderDisplay. split; [reflexivity|].
  destruct (reachable_finder_ok st Hreach) as [[Hnil _]|Hr].
  - left. rewrite Hnil. split; reflexivity.
  - right. apply indexInRange_spec in Hr.
    destruct (Z.ltb_spec 0 (Z.of_nat (length (filterFinderMatches st)))); lia.
Qed.

Lemma filterFinderDisplay_range_witness :
  reachable searchedOnce
  /\ (let '(current, total) := filterFinderDisplay searchedOnce in
      total = Z.of_nat (length (filterFinderMatches searchedOnce))
      /\ ((total = 0 /\ current = 0) \/ (1 <= current <= total))%Z).
Proof.
  split; [exact searchedOnce_reachable|].
  exact (filterFinderDisplay_range searchedOnce searchedOnce_reachable).
Defined.

(** X23. In every state the manager can reach, moving to the next match and
    then to the previous one, or the other way round, leads back to the same
    state. *)
Theorem navigate_next_prev_inverse :
  forall st, reachable st ->
    match navigateFilterMatch st "next" with
    | Some st' => navigateFilterMatch st' "prev"
    | None => None
    end = Some st
    /\ match navigateFilterMatch st "prev" with
       | Some st' => navigateFilterMatch st' "next"
       | None => None
       end = Some st.
Proof.
  intros st Hreach.
  destruct (reachable_finder_ok st Hreach) as [[Hnil _]|Hr].
  - assert (He : forall d, navigateFilterMatch st d = Some st).
    { intro d. rewrite navigateFilterMatch_result, Hnil. reflexivity. }
    rewrite (He "next"), (He "prev"). cbv beta iota. split; first [reflexivity | apply He].
  - assert (Hstep : forall s d, indexInRange s = true ->
               navigateFilterMatch s d
               = Some (with_finder s (filterFinderMatches s)
                         ((filterFinderCurrentIndex s
                           + (if String.eqb d "next" then 1 else -1))
                          mod Z.of_nat (length (filterFinderMatches s)))%Z)).
    { intros s d Hs. pose proof (navigateTimes_in_range d 1 s Hs) as H1.
      cbn [navigateTimes] in H1. rewrite Z.mul_1_r in H1.
      destruct (navigateFilterMatch s d); [exact H1 | discriminate]. }
    assert (Hin : forall i, indexInRange
                    (with_finder st (filterFinderMatches st)
                       (i mod Z.of_nat (length (filterFinderMatches st)))%Z) = true).
    { intro i. apply indexInRange_spec. cbn. apply indexInRange_spec in Hr.
      apply Z.mod_pos_bound. lia. }
    assert (Hround : forall c,
               (((filterFinderCurrentIndex st + c)
                 mod Z.of_nat (length (filterFinderMatches st)) + - c)
                mod Z.of_nat (length (filterFinderMatches st)))%Z
               = filterFinderCurrentIndex st).
    { intro c. apply indexInRange_spec in Hr. rewrite Zplus_mod_idemp_l.
      replace (filterFinderCurrentIndex st + c + - c)%Z
        with (filterFinderCurrentIndex st) by lia.
      apply Z.mod_small. exact Hr. }
    split.
    + rewrite (Hstep st "next" Hr). cbv beta iota. rewrite (Hstep _ "prev" (Hin _)).
      cbn [filterFinderMatches filterFinderCurrentIndex with_finder].
      change (if String.eqb "next" "next" then 1 else -1)%Z with 1%Z.
      change (if String.eqb "prev" "next" then 1 else -1)%Z with (- (1))%Z.
      rewrite (Hround 1%Z). f_equal.
      etransitivity; [|apply with_finder_same]. reflexivity.
    + rewrite (Hstep st "prev" Hr). cbv beta iota. rewrite (Hstep _ "next" (Hin _)).
      cbn [filterFinderMatches filterFinderCurrentIndex with_finder].
      change (if String.eqb "next" "next" then 1 else -1)%Z with (- (-1))%Z.
      change (if String.eqb "prev" "next" then 1 else -1)%Z with (-1)%Z.
      rewrite (Hround (-1)%Z). f_equal.
      etransitivity; [|apply with_finder_same]. reflexivity.
Qed.

Lemma navigate_next_prev_inverse_witness :
  reachable searchedOnce
  /\ match navigateFilterMatch searchedOnce "next" with
     | Some st' => navigateFilterMatch st' "prev"
     | None => None
     end = Some searchedOnce.
Proof.
  split; [exact searchedOnce_reachable|].
  exact (proj1 (navigate_next_prev_inverse searchedOnce searchedOnce_reachable)).
Defined.

(** ** The static count table *)

Section StaticCounts.

Lemma counts_get_set t i c j :
  Counts.get (Counts.set t i c) j = if String.eqb i j then Some c else Counts.get t j.
Proof.
  induction t as [|[i0 c0] t IH]; simpl.
  - destruct (String.eqb i j); reflexivity.
  - destruct (String.eqb_spec i0 i) as [->|Hi0]; simpl.
    + destruct (String.eqb i j); reflexivity.
    + rewrite IH. destruct (String.eqb_spec i0 j) as [->|Hj].
      * destruct (String.eqb_spec i j) as [->|_]; [contradiction | reflexivity].
      * reflexivity.
Qed.

Lemma string_app_inv_head (k v v' : string) : (k ++ v = k ++ v')%string -> v = v'.
Proof.
  induction k as [|c k IH]; simpl; intro H; [exact H|].
  inversion H. apply IH. assumption.
Qed.

Lemma filterIdOf_inj_value k v v' : filterIdOf k v = filterIdOf k v' -> v = v'.
Proof.
  unfold filterIdOf. intro H. apply string_app_inv_head in H.
  inversion H. reflexivity.
Qed.

Lemma filterIdOf_inj_key k k' v v' :
  hasChar ":" k = false -> hasChar ":" k' = false ->
  filterIdOf k v = filterIdOf k' v' -> k = k'.
Proof.
  intros Hk Hk' H.
  pose proof (parseFilterId_filterIdOf k v Hk) as Hp.
  rewrite H, (parseFilterId_filterIdOf k' v' Hk') in Hp. inversion Hp. reflexivity.
Qed.

(** The table after the counts of a list of values have been written. *)
Lemma counts_fold_set (count : string -> nat) key values : forall t,
  (forall v, In v values ->
     Counts.get (fold_left (fun acc v => Counts.set acc (filterIdOf key v) (count v)) values t)
                (filterIdOf key v) = Some (count v))
  /\ (forall id, (forall v, In v values -> id <> filterIdOf key v) ->
        Counts.get (fold_left (fun acc v => Counts.set acc (filterIdOf key v) (count v)) values t)
                   id = Counts.get t id).
Proof.
  induction values as [|v0 values IH] using rev_ind; intro t.
  - split; [intros v [] | reflexivity].
  - rewrite fold_left_app. cbn [fold_left]. destruct (IH t) as [Hset Hother]. split.
    + intros v Hv. rewrite counts_get_set.
      destruct (String.eqb_spec (filterIdOf key v0) (filterIdOf key v)) as [Heq|Hneq].
      * apply filterIdOf_inj_value in Heq. subst. reflexivity.
      * apply in_app_or in Hv. destruct Hv as [Hv|[<-|[]]]; [apply Hset, Hv | contradiction].
    + intros id Hid. rewrite counts_get_set.
      destruct (String.eqb_spec (filterIdOf key v0) id) as [<-|_].
      * exfalso. apply (Hid v0); [apply in_or_app; right; left; reflexivity | reflexivity].
      * apply Hother. intros v Hv. apply Hid. apply in_or_app. left. exact Hv.
Qed.

Lemma pathsWhere_complete (test : HierarchyNode -> bool) m : forall p node,
  nodeAt m p = Some node -> test node = true -> In p (pathsWhere test m).
Proof.
  induction m as [|k ch leaf rest IHch IHrest] using Hierarchy_ind2; intros p node Hnode Htest.
  - destruct p; discriminate.
  - rewrite pathsWhere_cons, !in_app_iff. destruct p as [|k' p']; [discriminate|].
    simpl in Hnode. destruct (String.eqb_spec k k') as [->|Hkk'].
    + destruct p' as [|x p''].
      * inversion Hnode; subst. left. rewrite Htest. left. reflexivity.
      * right. left. apply in_map. apply (IHch _ node); assumption.
    + right. right. apply (IHrest _ node); assumption.
Qed.

(** The labels whose counts are written for a group. *)
Lemma staticCountsOfGroup_fold datasets key group table :
  exists values,
    staticCountsOfGroup datasets key group table
    = fold_left (fun acc v => Counts.set acc (filterIdOf key v)
                                         (calculateAffectedCount datasets key v))
                values table
    /\ (forall title vs, group = FlatGroup title vs -> values = vs)
    /\ (forall title m, group = HierarchicalGroup title m ->
          forall p node, nodeAt m p = Some node -> In (lastLabel p) values).
Proof.
  destruct group as [title vs|title m].
  - exists vs. split; [reflexivity|]. split.
    + intros t' vs' H. inversion H. reflexivity.
    + intros t' m' H. discriminate.
  - exists (map lastLabel (pathsWhere (fun _ => true) m)). split; [|split].
    + cbn [staticCountsOfGroup]. rewrite calculateStaticHierarchyCounts_walk, walk_paths.
      apply (fold_left_map_arg
               (fun acc v => Counts.set acc (filterIdOf key v)
                                        (calculateAffectedCount datasets key v))
               lastLabel).
    + intros t' vs' H. discriminate.
    + intros t' m' H p node Hnode. inversion H; subst. apply in_map.
      apply (pathsWhere_complete _ _ _ node Hnode). reflexivity.
Qed.

(** Writing the counts of a group with a colon-free key leaves right every
    count that is right for a colon-free key. *)
Lemma staticCountsOfGroup_keeps datasets key group table k v :
  hasChar ":" key = false -> hasChar ":" k = false ->
  Counts.get table (filterIdOf k v) = Some (calculateAffectedCount datasets k v) ->
  Counts.get (staticCountsOfGroup datasets key group table) (filterIdOf k v)
  = Some (calculateAffectedCount datasets k v).
Proof.
  intros Hkey Hk Hget.
  destruct (staticCountsOfGroup_fold datasets key group table) as [values [-> _]].
  destruct (counts_fold_set (calculateAffectedCount datasets key) key values table)
    as [Hset Hother].
  destruct (String.eqb_spec key k) as [->|Hneq].
  - destruct (in_dec string_dec v values) as [Hin|Hout]; [apply Hset, Hin|].
    rewrite Hother; [exact Hget|]. intros v' Hv' Heq.
    apply filterIdOf_inj_value in Heq. subst. contradiction.
  - rewrite Hother; [exact Hget|]. intros v' _ Heq.
    apply (filterIdOf_inj_key k key v v' Hk Hkey) in Heq. congruence.
Qed.

End StaticCounts.

(** X24. After [updateStaticCountsForCategory] the table answers, through
    [getStaticCount], with the affected count for every value of a flat
    category and for the label of every node of a hierarchical category; the
    entries of identifiers that are not made of the category key are left as
    they were, and a key that names no category leaves the table unchanged. *)
Theorem updateStaticCountsForCategory_counts :
  forall (datasets : list Dataset) (groups : FilterGroups) (table : CountTable)
         (key : string),
    (group_of groups key = None ->
       updateStaticCountsForCategory datasets groups table key = table)
    /\ (forall title values v,
          group_of groups key = Some (FlatGroup title values) ->
          In v values ->
          getStaticCount (updateStaticCountsForCategory datasets groups table key) key v
          = calculateAffectedCount datasets key v)
    /\ (forall title values p node,
          group_of groups key = Some (HierarchicalGroup title values) ->
          nodeAt values p = Some node ->
          getStaticCount (updateStaticCountsForCategory datasets groups table key)
                         key (lastLabel p)
          = calculateAffectedCount datasets key (lastLabel p))
    /\ (forall id,
          (forall v, id <> filterIdOf key v) ->
          Counts.get (updateStaticCountsForCategory datasets groups table key) id
          = Counts.get table id).
Proof.
  intros datasets groups table key. unfold updateStaticCountsForCategory, getStaticCount.
  destruct (group_of groups key) as [group|]; [|repeat split; try discriminate; reflexivity].
  destruct (staticCountsOfGroup_fold datasets key group table) as [values [-> [Hflat Hhier]]].
  destruct (counts_fold_set (calculateAffectedCount datasets key) key values table)
    as [Hset Hother].
  split; [discriminate|]. split; [|split].
  - intros title vs v Hgroup Hv. inversion Hgroup; subst.
    rewrite (Hflat title vs eq_refl) in *. rewrite (Hset v Hv). reflexivity.
  - intros title m p node Hgroup Hnode. inversion Hgroup; subst.
    rewrite (Hset _ (Hhier title m eq_refl p node Hnode)). reflexivity.
  - intros id Hid. apply Hother. intros v _. apply Hid.
Qed.

(** X25. After [calculateStaticFilterCounts] on the index that
    [buildFilterGroups] built, [getStaticCount] gives the affected count of
    every value of every flat group and of the label of every node of the
    object hierarchy. *)
Theorem calculateStaticFilterCounts_counts :
  forall (datasets : list Dataset),
    (forall key x,
        In x (flatValues (buildFilterGroups datasets) key) ->
        getStaticCount (calculateStaticFilterCounts datasets (buildFilterGroups datasets))
                       key x
        = calculateAffectedCount datasets key x)
    /\ (forall p node,
          nodeAt (objectHierarchy (buildFilterGroups datasets)) p = Some node ->
          getStaticCount (calculateStaticFilterCounts datasets (buildFilterGroups datasets))
                         "object" (lastLabel p)
          = calculateAffectedCount datasets "object" (lastLabel p)).
Proof.
  intro datasets.
  assert (Hgen : forall groups k g v,
             (forall k' g', In (k', g') groups -> hasChar ":" k' = false) ->
             In (k, g) groups ->
             (forall table,
                Counts.get (staticCountsOfGroup datasets k g table) (filterIdOf k v)
                = Some (calculateAffectedCount datasets k v)) ->
             forall table,
               Counts.get (fold_left (fun t entry =>
                                        staticCountsOfGroup datasets (fst entry) (snd entry) t)
                                     groups table) (filterIdOf k v)
               = Some (calculateAffectedCount datasets k v)).
  { induction groups as [|[k0 g0] groups IH] using rev_ind; intros k g v Hkeys Hin Hwrite table;
      [destruct Hin|].
    rewrite fold_left_app. cbn [fold_left fst snd].
    apply in_app_or in Hin. destruct Hin as [Hin|[Heq|[]]].
    - apply staticCountsOfGroup_keeps.
      + apply (Hkeys k0 g0). apply in_or_app. right. left. reflexivity.
      + apply (Hkeys k g). apply in_or_app. left. exact Hin.
      + apply (IH k g v); [|exact Hin | exact Hwrite].
        intros k' g' H'. apply (Hkeys k' g'). apply in_or_app. left. exact H'.
    - inversion Heq; subst. apply Hwrite. }
  assert (Hkeys : forall k' g', In (k', g') (buildFilterGroups datasets) ->
                                hasChar ":" k' = false).
  { unfold buildFilterGroups. intros k' g' Hin. cbn [In] in Hin.
    destruct Hin as [H|[H|[H|[H|[H|[]]]]]]; inversion H; reflexivity. }
  unfold calculateStaticFilterCounts, getStaticCount. split.
  - intros key x Hx.
    assert (Hgroup : exists title,
               In (key, FlatGroup title (flatValues (buildFilterGroups datasets) key))
                  (buildFilterGroups datasets)).
    { unfold flatValues in *. unfold buildFilterGroups in *. cbn [group_of In] in *.
      destruct (String.eqb_spec "scene" key) as [<-|_]; [eexists; left; reflexivity|].
      destruct (String.eqb_spec "robot" key) as [<-|_];
        [eexists; right; left; reflexivity|].
      destruct (String.eqb_spec "end" key) as [<-|_];
        [eexists; right; right; left; reflexivity|].
      destruct (String.eqb_spec "action" key) as [<-|_];
        [eexists; right; right; right; left; reflexivity|].
      destruct (String.eqb "object" key); destruct Hx. }
    destruct Hgroup as [title Hgroup].
    rewrite (Hgen _ key _ x Hkeys Hgroup); [reflexivity|].
    intro table. cbn [staticCountsOfGroup].
    apply (proj1 (counts_fold_set (calculateAffectedCount datasets key) key _ table)).
    exact Hx.
  - intros p node Hnode.
    assert (Hgroup : In ("object", HierarchicalGroup "operation object"
                                     (objectHierarchy (buildFilterGroups datasets)))
                        (buildFilterGroups datasets)).
    { unfold buildFilterGroups at 2. cbn [In]. do 4 right. left. reflexivity. }
    rewrite (Hgen _ "object" _ (lastLabel p) Hkeys Hgroup); [reflexivity|].
    intro table.
    destruct (staticCountsOfGroup_fold datasets "object"
                (HierarchicalGroup "operation object"
                   (objectHierarchy (buildFilterGroups datasets))) table)
      as [values [-> [_ Hhier]]].
    apply (proj1 (counts_fold_set (calculateAffectedCount datasets "object") "object" _ table)).
    apply (Hhier _ _ eq_refl p node Hnode).
Qed.

(** ** The selection of datasets *)

Section CartFacts.

Lemma cart_fold_add (paths : list Dataset) : forall cart,
  selectedDatasets
    (fold_left (fun c ds => mkCart (StrSet.add (selectedDatasets c) (path ds))
                                   (StrSet.add (listDatasets c) (path ds))) paths cart)
  = fold_left StrSet.add (map path paths) (selectedDatasets cart)
  /\ listDatasets
       (fold_left (fun c ds => mkCart (StrSet.add (selectedDatasets c) (path ds))
                                      (StrSet.add (listDatasets c) (path ds))) paths cart)
     = fold_left StrSet.add (map path paths) (listDatasets cart).
Proof.
  induction paths as [|d paths IH]; intro cart; [split; reflexivity|].
  cbn [fold_left map]. destruct (IH (mkCart (StrSet.add (selectedDatasets cart) (path d))
                                            (StrSet.add (listDatasets cart) (path d))))
    as [H1 H2].
  rewrite H1, H2. split; reflexivity.
Qed.

Lemma cart_fold_delete (paths : list Dataset) : forall cart,
  selectedDatasets
    (fold_left (fun c ds => mkCart (StrSet.delete (selectedDatasets c) (path ds))
                                   (StrSet.delete (listDatasets c) (path ds))) paths cart)
  = fold_left StrSet.delete (map path paths) (selectedDatasets cart)
  /\ listDatasets
       (fold_left (fun c ds => mkCart (StrSet.delete (selectedDatasets c) (path ds))
                                      (StrSet.delete (listDatasets c) (path ds))) paths cart)
     = fold_left StrSet.delete (map path paths) (listDatasets cart).
Proof.
  induction paths as [|d paths IH]; intro cart; [split; reflexivity|].
  cbn [fold_left map]. destruct (IH (mkCart (StrSet.delete (selectedDatasets cart) (path d))
                                            (StrSet.delete (listDatasets cart) (path d))))
    as [H1 H2].
  rewrite H1, H2. split; reflexivity.
Qed.

End CartFacts.

(** X26. [selectAllFiltered] leaves selected what was selected and the path
    of every record that [applyFilters] returns for the current selection and
    search box, and [deselectAllFiltered] for the same filter state, applied
    next, leaves exactly the paths selected at the start that are not paths of
    such records. *)
Theorem selectAllFiltered_then_deselect :
  forall (st : State) (searchBox : string) (cart : Cart) (p : string),
    StrSet.has (selectedDatasets (selectAllFiltered st searchBox cart)) p
    = StrSet.has (selectedDatasets cart) p
      || arr_includes
           (map path (applyFilters (datasets st) (selectedFilters st) searchBox)) p
    /\ StrSet.has
         (selectedDatasets
            (deselectAllFiltered st searchBox (selectAllFiltered st searchBox cart))) p
       = StrSet.has (selectedDatasets cart) p
         && negb (arr_includes
                    (map path (applyFilters (datasets st) (selectedFilters st) searchBox)) p).
Proof.
  intros st searchBox cart p. unfold selectAllFiltered, deselectAllFiltered.
  rewrite (proj1 (cart_fold_delete _ _)), (proj1 (cart_fold_add _ _)).
  rewrite has_fold_delete, StrSetFacts.has_fold_add. split; [reflexivity|].
  destruct (StrSet.has (selectedDatasets cart) p); destruct (arr_includes _ p); reflexivity.
Qed.

(** X27. The two sets of dataset paths stay in step: when the selected set
    and the list set have the same members, they still have the same members
    after [toggleSelection], [selectAllFiltered] and [deselectAllFiltered]. *)
Theorem cart_sets_in_step :
  forall (st : State) (searchBox : string) (cart : Cart) (p : string),
    StrSet.same (selectedDatasets cart) (listDatasets cart) ->
    StrSet.same (selectedDatasets (toggleSelection cart p))
                (listDatasets (toggleSelection cart p))
    /\ StrSet.same (selectedDatasets (selectAllFiltered st searchBox cart))
                   (listDatasets (selectAllFiltered st searchBox cart))
    /\ StrSet.same (selectedDatasets (deselectAllFiltered st searchBox cart))
                   (listDatasets (deselectAllFiltered st searchBox cart)).
Proof.
  intros st searchBox cart p Hsame. split; [|split]; intro x.
  - unfold toggleSelection. destruct (StrSet.has (selectedDatasets cart) p);
      cbn [selectedDatasets listDatasets].
    + rewrite !StrSetFacts.has_delete, Hsame. reflexivity.
    + rewrite !StrSetFacts.has_add, Hsame. reflexivity.
  - unfold selectAllFiltered.
    rewrite (proj1 (cart_fold_add _ _)), (proj2 (cart_fold_add _ _)).
    rewrite !StrSetFacts.has_fold_add, Hsame. reflexivity.
  - unfold deselectAllFiltered.
    rewrite (proj1 (cart_fold_delete _ _)), (proj2 (cart_fold_delete _ _)).
    rewrite !has_fold_delete, Hsame. reflexivity.
Qed.

Lemma cart_sets_in_step_witness :
  StrSet.same (selectedDatasets (mkCart ["A"] ["A"])) (listDatasets (mkCart ["A"] ["A"]))
  /\ StrSet.same (selectedDatasets (toggleSelection (mkCart ["A"] ["A"]) "B"))
                 (listDatasets (toggleSelection (mkCart ["A"] ["A"]) "B")).
Proof.
  assert (Hsame : StrSet.same (selectedDatasets (mkCart ["A"] ["A"]))
                              (listDatasets (mkCart ["A"] ["A"]))) by (intro x; reflexivity).
  split; [exact Hsame|].
  exact (proj1 (cart_sets_in_step (newFilterManager []) "" (mkCart ["A"] ["A"]) "B" Hsame)).
Defined.

(** ** Adding a selection narrows or widens the result *)

Section NarrowWiden.

Lemma facetMatch_more ds key values value :
  facetMatch ds key values = true -> facetMatch ds key (values ++ [value]) = true.
Proof.
  rewrite !(facetMatch_existsb ds key), existsb_app. intros ->. reflexivity.
Qed.

Lemma forallb_push ds F k v :
  forallb (fun '(key, values) => facetMatch ds key values) (filters_push F k v)
  = match filters_get F k with
    | Some _ =>
        forallb (fun '(key, values) => facetMatch ds key values) (filters_push F k v)
    | None =>
        forallb (fun '(key, values) => facetMatch ds key values) F && facetMatch ds k [v]
    end
  /\ (forallb (fun '(key, values) => facetMatch ds key values) F = true ->
      filters_get F k <> None ->
      forallb (fun '(key, values) => facetMatch ds key values) (filters_push F k v) = true).
Proof.
  induction F as [|[k0 vs0] F [IH1 IH2]]; simpl.
  - split; [rewrite andb_true_r; reflexivity | intros _ H; contradiction].
  - destruct (String.eqb_spec k0 k) as [->|Hk0]; simpl.
    + split; [reflexivity|]. intros Hall _. apply andb_true_iff in Hall.
      destruct Hall as [H0 Hrest]. rewrite (facetMatch_more _ _ _ _ H0). exact Hrest.
    + split.
      * destruct (filters_get F k); [reflexivity|]. rewrite IH1, andb_assoc. reflexivity.
      * intros Hall Hget. apply andb_true_iff in Hall. destruct Hall as [H0 Hrest].
        rewrite H0. apply IH2; assumption.
Qed.

Lemma key_collected s k :
  filters_get (collectFilters s) k <> None
  <-> exists id, In id s /\ fst (parseFilterId id) = k.
Proof.
  pose proof (collectFilters_get s k) as Hget.
  destruct (filters_get (collectFilters s) k) as [vs|].
  - destruct Hget as [Hne Hvs]. split; [intros _ | intros _; discriminate].
    destruct vs as [|val vs]; [contradiction|].
    destruct (proj1 (Hvs val) (or_introl eq_refl)) as [id [Hid Hp]].
    exists id. split; [exact Hid | rewrite Hp; reflexivity].
  - split; [intro H; contradiction|]. intros [id [Hid Hk]]. exfalso. apply (Hget id Hid Hk).
Qed.

End NarrowWiden.

(** X28. Adding an identifier to the selection set narrows the result when
    no selected identifier has the same key, and widens it when one has: in
    the first case every record returned afterwards was returned before, in
    the second every record returned before is still returned. *)
Theorem applyFilters_narrows_or_widens :
  forall (catalog : list Dataset) (s : JSSet) (id query : string) (ds : Dataset),
    ((forall id', In id' s -> fst (parseFilterId id') <> fst (parseFilterId id)) ->
     In ds (applyFilters catalog (StrSet.add s id) query) ->
     In ds (applyFilters catalog s query))
    /\ ((exists id', In id' s /\ fst (parseFilterId id') = fst (parseFilterId id)) ->
        In ds (applyFilters catalog s query) ->
        In ds (applyFilters catalog (StrSet.add s id) query)).
Proof.
  intros catalog s id query ds. unfold StrSet.add.
  destruct (StrSet.has s id) eqn:Hhas; [split; intros _ H; exact H|].
  unfold applyFilters. rewrite !filter_In, collectFilters_app. unfold passesFilters.
  destruct (negb (String.eqb query "")
            && negb (includes (toLowerCase (name ds)) (toLowerCase query)));
    [split; intros _ H; exact H|].
  destruct (forallb_push ds (collectFilters s) (fst (parseFilterId id))
              (snd (parseFilterId id))) as [Hnew Hold].
  split.
  - intros Hfresh [Hds Hpass]. split; [exact Hds|].
    destruct (filters_get (collectFilters s) (fst (parseFilterId id))) eqn:Hget.
    + exfalso. assert (Hsome : filters_get (collectFilters s) (fst (parseFilterId id)) <> None)
        by (rewrite Hget; discriminate).
      apply key_collected in Hsome. destruct Hsome as [id' [Hid' Hk]].
      apply (Hfresh id' Hid' Hk).
    + rewrite Hnew in Hpass. apply andb_true_iff in Hpass. tauto.
  - intros Hkey [Hds Hpass]. split; [exact Hds|].
    apply Hold; [exact Hpass|]. apply key_collected. exact Hkey.
Qed.
